(* ===== verification/_CoqProject ===== *)
-Q . S2P
Prelude.v
Overlap.v
JsString.v
Completion.v
Utf8.v
Utf8Length.v
Utf8Encode.v
Utf16.v
StringSearch.v
Validator.v
Machine.v
Node.v
Script.v
Events.v
