(* ===== verification/Prelude.v ===== *)
(** * Verification of [validate.js]: the structure validator

    The program is one Node.js script, [src/validate.js].  It reads the file
    [CLARIFICATION_REQUEST.md] as UTF-8 text (line 5), walks a fixed array of
    six section names (lines 7-14), throws [Error("Missing section: <name>")]
    at the first name that is not a substring of the text (lines 16-20), and
    otherwise prints [Structure validation passed] (line 22).  Nothing is
    caught: an error thrown by the read or by the loop ends the process with
    status 1, a normal end gives status 0.

    ** The model

    The script is embedded as Rocq functions.  A JavaScript String is the
    list of its UTF-16 code units, a byte or code unit is a [Z] with its
    range stated as a predicate, indices and lengths are [nat].  A statement
    evaluates to a completion, [Normal a] or [Throw e]; a statement that
    touches the host is a function from a world (file system and standard
    output) to a world and a completion.  The built-ins the script calls are
    modelled from their specifications (ECMAScript for [includes] and the
    template literal, the Encoding Standard for the UTF-8 decoder, Node's
    documentation for the errors of [fs.readFileSync]) at the line that
    calls them.

    ** Files, in dependency order

    - [Prelude] (this file): the theory every other file shares.
      Contiguous occurrence in lists ([occurs_at v w i], [v `infix_of` w])
      with its order structure and decision procedure; [unlines]; the
      relation [blocks P l1 l2] between two lists that agree on the elements
      satisfying [P] and differ by runs of other elements, which carries the
      proof that decoding keeps ASCII text; the hint databases [occ] and
      [js_simpl] and the tactics [case_test] and [by_compute].
    - [Overlap]: words that cannot overlap ([overlap], [clash], [apart],
      [holds]) and the counting lemmas: a text holding every word of such
      a family is at least as long as all of them together, and if it is no
      longer it is the words laid end to end in some order.
    - [JsString]: String values; [lit] (a string literal), [substring],
      [template] (the template literal of line 18), with length and
      well-formedness lemmas.
    - [Completion]: [js_error] (an Error object: message and optional
      [code]), [new_Error] and [Throw] (line 18), the completion monad and
      [for_of] (the loop statement of line 16) with the lemmas that say when
      a loop completes normally and what it throws.
    - [Utf8]: the decoding that [readFileSync(..., "utf8")] performs, as the
      Encoding Standard's decoder in replacement mode ([handler],
      [decode_from], [finish]) followed by [utf16_units].  Theorems: a run
      of ASCII code units occurs in the decoded text exactly when it occurs
      among the bytes, for arbitrary bytes; the decoder emits only Unicode
      scalar values.  The invariant [state_ok] bounds the partial code point
      of an open sequence.
    - [Utf8Length]: the size of the text read.  Theorem: the decoded text
      has at most as many code units as the file has bytes and at least a
      third as many, by two potentials of the decoder's state ([open],
      [pending]).
    - [Utf8Encode]: the encoder of the Encoding Standard
      ([utf8_encode_cp], [utf8_encode]): what [console.log] (line 22) does
      to the line it writes, and the reference the decoder is checked
      against.  Theorems: decoding the encoding of any sequence of scalar
      values gives the sequence back, with no replacement character; a byte
      sequence decodes without one exactly when it is such an encoding.
      A byte order mark is decoded as U+FEFF ([utf8_decode_bom]).
    - [Utf16]: the code points of a String ([code_points], a lone surrogate
      read as U+FFFD), well-formed Strings ([is_well_formed]) and
      [utf8_write], the bytes of a String.  Theorems: the text read from
      any file is a well-formed String; a String written and read back is
      itself exactly when it is well-formed.
    - [StringSearch]: [includes] as called on line 17 ([includes_from] with
      the position clamp, [StringIndexOf], [StringIndexOf_from]).  The
      interface [Includes] states what the validator needs of it (true
      exactly on [infix_of]); [ecma_includes] discharges it.  Theorems:
      [StringIndexOf] returns the least occurrence at or after the start
      index; [includes] agrees with the reference search [infix_ofb].
    - [Validator]: [requiredSections] (lines 7-14), [check_section] (lines
      17-19), [check_sections] (lines 16-20), [missing_section_message]
      (line 18), proved against the interface [Includes].  Theorems: the
      loop passes exactly when every name occurs; it throws exactly the
      error of the first missing name; containment is all that is tested;
      the test is exact, for letter case ([to_lower], [to_upper]) and for
      spaces; the six names are independent (none occurs in a document
      made of the others) and each can be the one reported; a passing
      document has at least 141 code units, and those of exactly 141 are
      the orderings of the six names.
    - [Machine]: the same loop one iteration at a time, as the relation
      [step] over [Checking i | Succeeded | Failed name] and the functions
      [next] and [run].  Theorems: refinement to [check_sections],
      termination within [length sections + 1] iterations, and the
      invariant of reachable states.
    - [Node]: the world ([fs] as a map from paths to [File readable data],
      [Directory] or [Unavailable code desc syscall], a node on which the
      system reports the given error; [stdout] as the lines written),
      programs over a world, [uv_exception], [read_file] and
      [readFileSync] (line 5) with the errors ENOENT, EISDIR, EACCES and
      the error of an unavailable node, [console_log] (line 22),
      [write_line] and [stdout_bytes] (standard output as bytes).
    - [Script]: [script_with] and [script] (lines 5-22), [exit_status] and
      [run_process] (what Node does with an uncaught error), and the
      validator's contract [validates] / [validate] over the outcomes
      [Success | MissingSectionError name | FileAccessError].  Theorems: the
      script meets the contract; status 0 exactly when the document is
      readable and holds all six names; the error of a missing document,
      and of every other failure of the read, with the shape of its
      message; the run is repeatable, changes no file and writes exactly
      the success line, as 28 bytes; the verdict is a function of the
      file's bytes, the same with and without a byte order mark, and the
      same as the loop's on a text written to the document; a file that
      passes has at least 141 bytes, and those of exactly 141 are the
      orderings of the six names.
    - [Events]: the script once more, as an interaction tree
      ([script_tree_with]) over the two calls it makes to its host
      ([hostE]: [ReadFileSync], [ConsoleLog]), with nothing assumed of the
      host's answers.  [runs] gives the complete traces of a tree.
      Theorems: every run is one read, first, and one log exactly when the
      read returned a text on which the loop completes; what a run reports
      for each answer of the read, by the first name missing from the
      text.  This file loads the ITree library and none of stdpp's
      notations.

    ** Bounds

    No fuel is chosen anywhere.  The search of [StringIndexOf] is a
    structural recursion on the number of candidate positions,
    [S len - searchLen - fromIndex], which is the count of the indices [i]
    with [fromIndex <= i <= len - searchLen] the standard ranges over; the
    loop is a structural recursion on the array; the decoder is a structural
    recursion on the bytes.  [run n] of the machine takes an iteration
    count, and [machine_terminates] shows that [length sections + 1] and
    any larger count reach the terminal state.  The recursions of [Utf16]
    and of the converse round trip of [Utf8Encode] that consume one or two
    code units, or one to four bytes, at a time are proved by induction on
    the length of the input.

    ** Not modelled

    The limits of Node.js on the size of a file read at once and on the
    length of a String (the errors ERR_FS_FILE_TOO_LARGE and
    ERR_STRING_TOO_LONG): [read_file] decodes a readable file of any size,
    so what is proved of a readable document holds below those limits.
    Module resolution of [require("fs")] (line 3): the name is that of a
    built-in module, which the host binds before it looks at any file, and
    the binding is used once, on line 5, where [readFileSync] stands for
    it.  The text Node prints on standard error for an uncaught error: it
    is the host's, with a stack trace that depends on the version and the
    place of the script; the run keeps the status and the Error object.
    Resolution of the relative path against the working directory and
    through symbolic links: the world is indexed by the path as written,
    and what resolution can end in is a node of the world (a file, a
    directory, nothing, or [Unavailable] with the error the system
    reports, such as ELOOP).  The TypeError [includes] throws for a RegExp
    argument: the argument is always a String here.

    ** Further work

    The size limits of the read, as a bound on [File] nodes in the world
    of [Node].  Of [src/validate.js] itself nothing is left: lines 5 to 22
    are definitions of the development, line 3 is the binding above, and
    the other lines are the comment and blank lines. *)

From stdpp Require Import base tactics decidable option list numbers sets.

Declare Scope occ_scope.
Delimit Scope occ_scope with occ.
Open Scope occ_scope.

Create HintDb occ discriminated.
Create Rewrite HintDb js_simpl.

(** ** Lists *)

(** A property of the elements of [l ≫= f] from a property of the elements
    of [l]. *)
Lemma Forall_bind_intro {A B} (P : A → Prop) (Q : B → Prop) (f : A → list B) l :
  Forall P l → (∀ x, P x → Forall Q (f x)) → Forall Q (l ≫= f).
Proof.
  intros Hl Hf. apply Forall_bind. induction Hl; constructor; auto.
Qed.

(** ** Contiguous occurrence *)

Section occurrence.
Context {A : Type}.
Implicit Types (u v w k : list A) (i j : nat) (x y : A).

(** [v] occurs in [w] at index [i]: [w] splits as [i] elements, then [v],
    then a rest. *)
Definition occurs_at (v w : list A) (i : nat) : Prop :=
  ∃ k1 k2, w = k1 ++ v ++ k2 ∧ length k1 = i.

(** [v] is a contiguous sublist of [w]. *)
Definition infix_of (v w : list A) : Prop := ∃ k1 k2, w = k1 ++ v ++ k2.

End occurrence.

Infix "`infix_of`" := infix_of (at level 70) : occ_scope.

Section occurrence_facts.
Context {A : Type}.
Implicit Types (u v w k : list A) (i j : nat) (x y : A).

Lemma infix_of_occurs v w : v `infix_of` w ↔ ∃ i, occurs_at v w i.
Proof.
  split.
  - intros (k1 & k2 & ->). exists (length k1), k1, k2. done.
  - intros (i & k1 & k2 & -> & _). by exists k1, k2.
Qed.

Lemma occurs_at_bound v w i : occurs_at v w i → i + length v ≤ length w.
Proof. intros (k1 & k2 & -> & <-). rewrite !length_app. lia. Qed.

(** The index form of [occurs_at]: the window of [w] that starts at [i] and
    has the length of [v] is [v], and it lies inside [w]. *)
Lemma occurs_at_take_drop v w i :
  occurs_at v w i ↔ i + length v ≤ length w ∧ take (length v) (drop i w) = v.
Proof.
  split.
  - intros H. split; [by apply occurs_at_bound|].
    destruct H as (k1 & k2 & -> & <-).
    by rewrite drop_app_length, take_app_length.
  - intros [Hle Hw]. exists (take i w), (drop (i + length v) w). split.
    + rewrite <-(take_drop i w) at 1. f_equal.
      rewrite <-(take_drop (length v) (drop i w)) at 1.
      by rewrite Hw, drop_drop.
    + rewrite length_take. lia.
Qed.

Lemma occurs_at_nil w i : occurs_at [] w i ↔ i ≤ length w.
Proof. rewrite occurs_at_take_drop. simpl. rewrite take_0. intuition lia. Qed.

Lemma occurs_at_0 v w : occurs_at v w 0 ↔ v `prefix_of` w.
Proof.
  split.
  - intros (k1 & k2 & -> & Hk). apply nil_length_inv in Hk as ->. by exists k2.
  - intros [k ->]. by exists [], k.
Qed.

Lemma occurs_at_cons v w x i : occurs_at v (x :: w) (S i) ↔ occurs_at v w i.
Proof.
  split.
  - intros (k1 & k2 & Hw & Hk). destruct k1 as [|y k1]; simplify_eq/=.
    by exists k1, k2.
  - intros (k1 & k2 & -> & <-). by exists (x :: k1), k2.
Qed.

Lemma occurs_at_app_l v w k i : occurs_at v w i → occurs_at v (k ++ w) (length k + i).
Proof.
  intros (k1 & k2 & -> & <-). exists (k ++ k1), k2.
  by rewrite length_app, <-app_assoc.
Qed.

Lemma occurs_at_app_r v w k i : occurs_at v w i → occurs_at v (w ++ k) i.
Proof.
  intros (k1 & k2 & -> & <-). exists k1, (k2 ++ k). by rewrite <-!app_assoc.
Qed.

(** Occurrences at or after index [n] are the occurrences in [drop n w]. *)
Lemma occurs_at_drop v w n j :
  n ≤ j → occurs_at v w j ↔ n ≤ length w ∧ occurs_at v (drop n w) (j - n).
Proof.
  intros Hn. rewrite !occurs_at_take_drop, drop_drop, length_drop.
  replace (n + (j - n)) with j by lia. intuition lia.
Qed.

Lemma infix_of_drop v w n :
  n ≤ length w → v `infix_of` drop n w ↔ ∃ j, n ≤ j ∧ occurs_at v w j.
Proof.
  intros Hn. rewrite infix_of_occurs. split.
  - intros [i Hi]. exists (n + i). split; [lia|].
    apply (occurs_at_drop _ _ n); [lia|]. by replace (n + i - n) with i by lia.
  - intros (j & Hj & Ho). exists (j - n). by apply occurs_at_drop.
Qed.

Lemma infix_of_nil w : [] `infix_of` w.
Proof. by exists [], w. Qed.

Lemma infix_of_length v w : v `infix_of` w → length v ≤ length w.
Proof. intros (k1 & k2 & ->). rewrite !length_app. lia. Qed.

Lemma infix_of_nil_inv v : v `infix_of` [] → v = [].
Proof. intros H. apply infix_of_length in H. apply nil_length_inv. simpl in H. lia. Qed.

Lemma prefix_infix_of v w : v `prefix_of` w → v `infix_of` w.
Proof. intros [k ->]. by exists [], k. Qed.

Lemma suffix_infix_of v w : v `suffix_of` w → v `infix_of` w.
Proof. intros [k ->]. exists k, []. by rewrite app_nil_r. Qed.

Lemma infix_of_app_l v w k : v `infix_of` w → v `infix_of` k ++ w.
Proof. intros (k1 & k2 & ->). exists (k ++ k1), k2. by rewrite <-app_assoc. Qed.

Lemma infix_of_app_r v w k : v `infix_of` w → v `infix_of` w ++ k.
Proof. intros (k1 & k2 & ->). exists k1, (k2 ++ k). by rewrite <-!app_assoc. Qed.

Lemma infix_of_cons v w x : v `infix_of` w → v `infix_of` x :: w.
Proof. apply (infix_of_app_l _ _ [x]). Qed.

#[export] Instance infix_of_preorder : PreOrder (@infix_of A).
Proof.
  split.
  - intros v. exists [], []. by rewrite app_nil_r.
  - intros u v w (k1 & k2 & ->) (k3 & k4 & ->).
    exists (k3 ++ k1), (k2 ++ k4). by rewrite <-!app_assoc.
Qed.

Lemma infix_of_length_eq v w : v `infix_of` w → length w ≤ length v → v = w.
Proof.
  intros (k1 & k2 & ->). rewrite !length_app. intros Hl.
  assert (k1 = []) as -> by (apply nil_length_inv; lia).
  assert (k2 = []) as -> by (apply nil_length_inv; lia).
  by rewrite app_nil_r.
Qed.

#[export] Instance infix_of_antisymm : AntiSymm (=) (@infix_of A).
Proof.
  intros v w Hvw Hwv. apply infix_of_length_eq; [done|].
  by apply infix_of_length.
Qed.

(** An occurrence in [x :: w] starts at the head or lies in the tail. *)
Lemma infix_of_cons_iff v w x :
  v `infix_of` x :: w ↔ v `prefix_of` x :: w ∨ v `infix_of` w.
Proof.
  split.
  - intros ([|y k1] & k2 & Hw); simplify_eq/=.
    + left. by exists k2.
    + right. by exists k1, k2.
  - intros [?|?]; [by apply prefix_infix_of | by apply infix_of_cons].
Qed.

Lemma elem_of_infix_of v w x : x ∈ v → v `infix_of` w → x ∈ w.
Proof. intros Hx (k1 & k2 & ->). set_solver. Qed.

Lemma prefix_of_app_sep v w1 w2 x :
  x ∉ v → v `prefix_of` w1 ++ x :: w2 → v `prefix_of` w1.
Proof.
  revert v. induction w1 as [|y w1 IH]; intros [|z v] Hx Hp;
    try by apply prefix_nil.
  - apply prefix_cons_inv_1 in Hp as ->. set_solver.
  - pose proof (prefix_cons_inv_1 _ _ _ _ Hp) as ->.
    apply prefix_cons, IH; [set_solver|]. by eapply prefix_cons_inv_2.
Qed.

(** An occurrence of [v] in two lists joined by a separator that [v] does
    not contain lies wholly on one side. *)
Lemma infix_of_app_sep v w1 w2 x :
  x ∉ v → v `infix_of` w1 ++ x :: w2 → v `infix_of` w1 ∨ v `infix_of` w2.
Proof.
  intros Hx. induction w1 as [|y w1 IH]; simpl; rewrite infix_of_cons_iff.
  - intros [Hp|?]; [|by right]. left.
    apply prefix_infix_of, (prefix_of_app_sep v [] w2 x); done.
  - intros [Hp|Hi].
    + left. apply prefix_infix_of, (prefix_of_app_sep v (y :: w1) w2 x); done.
    + destruct (IH Hi); [left; by apply infix_of_cons | by right].
Qed.

(** A non-empty list occurs in [k ++ w] only inside [w] when it shares no
    element with [k]. *)
Lemma infix_of_app_skip k v w :
  v ≠ [] → (∀ x, x ∈ k → x ∉ v) → v `infix_of` k ++ w ↔ v `infix_of` w.
Proof.
  intros Hv Hk. split; [|apply infix_of_app_l].
  induction k as [|x k IH]; [done|]. simpl. rewrite infix_of_cons_iff.
  intros [Hp|Hi]; [|apply IH; [set_solver|done]].
  destruct v as [|y v]; [done|]. apply prefix_cons_inv_1 in Hp as ->.
  destruct (Hk x); set_solver.
Qed.

Lemma prefix_of_app_skip k v w :
  k ≠ [] → (∀ x, x ∈ k → x ∉ v) → v `prefix_of` k ++ w ↔ v = [].
Proof.
  intros Hne Hk. split; [|intros ->; apply prefix_nil].
  destruct k as [|x k]; [done|]. destruct v as [|y v]; [done|]. simpl.
  intros Hp. apply prefix_cons_inv_1 in Hp as ->. destruct (Hk x); set_solver.
Qed.

(** ** Lines *)

(** The text whose lines are [ls], each ended by the separator [sep]. *)
Definition unlines (sep : A) (ls : list (list A)) : list A :=
  ls ≫= λ l, l ++ [sep].

Lemma unlines_cons sep l ls : unlines sep (l :: ls) = l ++ sep :: unlines sep ls.
Proof. unfold unlines. simpl. by rewrite <-app_assoc. Qed.

Lemma infix_of_unlines_elem sep l ls : l ∈ ls → l `infix_of` unlines sep ls.
Proof.
  induction 1 as [l ls|l l' ls _ IH]; rewrite unlines_cons.
  - by apply prefix_infix_of, prefix_app_r.
  - by apply infix_of_app_l, infix_of_cons.
Qed.

(** A non-empty list without the separator occurs in a text only inside one
    of its lines. *)
Lemma infix_of_unlines v sep ls :
  sep ∉ v → v ≠ [] → v `infix_of` unlines sep ls → ∃ l, l ∈ ls ∧ v `infix_of` l.
Proof.
  intros Hsep Hv. induction ls as [|l ls IH].
  - by intros ?%infix_of_nil_inv.
  - rewrite unlines_cons. intros [Hl|Hls]%infix_of_app_sep; [| |done].
    + exists l. split; [apply list_elem_of_here|done].
    + destruct (IH Hls) as (l' & ? & ?). exists l'.
      split; [by apply list_elem_of_further|done].
Qed.

Lemma unlines_length sep ls :
  length (unlines sep ls) = sum_list (length <$> ls) + length ls.
Proof.
  induction ls as [|l ls IH]; [done|].
  rewrite unlines_cons, length_app, fmap_cons. simpl. rewrite IH. lia.
Qed.

End occurrence_facts.

(** ** Lists that agree on the elements they keep *)

(** [blocks P w1 w2]: the two lists have the same elements satisfying [P],
    in the same places relative to each other, and wherever one has a
    non-empty run of elements outside [P] the other has one too.  A decoder
    that passes the elements of [P] through and turns every run of other
    elements into a run of other elements relates its input to its output
    in this way. *)

Section blocks.
Context {A : Type} (P : A → Prop).
Implicit Types (v w k : list A) (x y : A).

Inductive blocks : list A → list A → Prop :=
| blocks_nil : blocks [] []
| blocks_keep x w1 w2 : P x → blocks w1 w2 → blocks (x :: w1) (x :: w2)
| blocks_chunk k1 k2 w1 w2 :
    k1 ≠ [] → k2 ≠ [] → Forall (λ x, ¬ P x) k1 → Forall (λ x, ¬ P x) k2 →
    blocks w1 w2 → blocks (k1 ++ w1) (k2 ++ w2).

(** A run of elements outside [P] has been read and its replacement is
    still to come: [w2] starts with a non-empty run outside [P], [w1] may
    continue the run that was read. *)
Definition owed (w1 w2 : list A) : Prop :=
  ∃ k1 k2 w1' w2',
    w1 = k1 ++ w1' ∧ w2 = k2 ++ w2' ∧
    Forall (λ x, ¬ P x) k1 ∧ k2 ≠ [] ∧ Forall (λ x, ¬ P x) k2 ∧
    blocks w1' w2'.

Lemma owed_intro k w1 w2 :
  k ≠ [] → Forall (λ x, ¬ P x) k → blocks w1 w2 → owed w1 (k ++ w2).
Proof. intros ???. by exists [], k, w1, w2. Qed.

Lemma owed_cons x w1 w2 : ¬ P x → owed w1 w2 → owed (x :: w1) w2.
Proof.
  intros Hx (k1 & k2 & w1' & w2' & -> & -> & ? & ? & ? & ?).
  exists (x :: k1), k2, w1', w2'. split_and!; try done. by constructor.
Qed.

Lemma owed_emit y w1 w2 : ¬ P y → owed w1 w2 → owed w1 (y :: w2).
Proof.
  intros Hy (k1 & k2 & w1' & w2' & -> & -> & ? & ? & ? & ?).
  exists k1, (y :: k2), w1', w2'. split_and!; try done. by constructor.
Qed.

Lemma owed_emit_list k w1 w2 :
  Forall (λ x, ¬ P x) k → owed w1 w2 → owed w1 (k ++ w2).
Proof. induction 1; simpl; eauto using owed_emit. Qed.

Lemma owed_blocks x w1 w2 : ¬ P x → owed w1 w2 → blocks (x :: w1) w2.
Proof.
  intros Hx (k1 & k2 & w1' & w2' & -> & -> & ? & ? & ? & ?).
  apply (blocks_chunk (x :: k1)); try done. by constructor.
Qed.

Lemma not_elem_of_kept v k x :
  Forall P v → Forall (λ x, ¬ P x) k → x ∈ k → x ∉ v.
Proof. rewrite !Forall_forall. intros Hv Hk Hx Hxv. by apply (Hk x), Hv. Qed.

Lemma blocks_prefix w1 w2 v :
  blocks w1 w2 → Forall P v → v `prefix_of` w1 ↔ v `prefix_of` w2.
Proof.
  intros Hb. revert v.
  induction Hb as [|x w1 w2 Hx _ IH|k1 k2 w1 w2 ? ? Hk1 Hk2 _ _]; intros v Hv.
  - done.
  - destruct v as [|y v]; [by split; intros _; apply prefix_nil|].
    apply Forall_cons in Hv as [_ Hv]. specialize (IH v Hv).
    split; intros Hp; pose proof (prefix_cons_inv_1 _ _ _ _ Hp) as ->;
      apply prefix_cons, IH; by eapply prefix_cons_inv_2.
  - rewrite !prefix_of_app_skip; [done|done|..]; eauto using not_elem_of_kept.
Qed.

(** Occurrences of a non-empty list of kept elements are the same on both
    sides. *)
Lemma blocks_infix_of w1 w2 v :
  blocks w1 w2 → Forall P v → v ≠ [] → v `infix_of` w1 ↔ v `infix_of` w2.
Proof.
  intros Hb Hv Hne.
  induction Hb as [|x w1 w2 Hx Hb IH|k1 k2 w1 w2 ? ? Hk1 Hk2 _ IH].
  - done.
  - rewrite !infix_of_cons_iff, IH.
    by rewrite (blocks_prefix (x :: w1) (x :: w2)) by (by try apply blocks_keep).
  - rewrite !infix_of_app_skip; eauto using not_elem_of_kept.
Qed.

(** Mapping the second list through an expansion that keeps the elements of
    [P] as they are and expands the others into non-empty runs of others. *)
Lemma blocks_bind (f : A → list A) w1 w2 :
  (∀ x, P x → f x = [x]) →
  (∀ x, ¬ P x → f x ≠ [] ∧ Forall (λ y, ¬ P y) (f x)) →
  blocks w1 w2 → blocks w1 (w2 ≫= f).
Proof.
  intros Hkeep Hexp.
  induction 1 as [|x w1 w2 Hx _ IH|k1 k2 w1 w2 ? Hne Hk1 Hk2 _ IH].
  - constructor.
  - change (blocks (x :: w1) (f x ++ (w2 ≫= f))). rewrite (Hkeep x Hx).
    by constructor.
  - rewrite bind_app. apply blocks_chunk; [done| |done| |done].
    + destruct k2 as [|y k2]; [done|]. apply Forall_cons in Hk2 as [Hy _].
      destruct (Hexp y Hy) as [Hfy _]. change (f y ++ (k2 ≫= f) ≠ []).
      by destruct (f y).
    + clear Hne. induction Hk2 as [|y k2 Hy _ IHk]; [constructor|].
      change (Forall (λ y, ¬ P y) (f y ++ (k2 ≫= f))).
      apply Forall_app. split; [by apply Hexp | done].
Qed.

End blocks.

(** ** Deciding occurrence *)

Section occurrence_dec.
Context {A : Type} `{!EqDecision A}.
Implicit Types (v w : list A) (i : nat).

#[export] Instance occurs_at_dec v w i : Decision (occurs_at v w i).
Proof.
  refine (cast_if (decide (i + length v ≤ length w
                           ∧ take (length v) (drop i w) = v)));
    by rewrite occurs_at_take_drop.
Defined.

Fixpoint infix_ofb (v w : list A) : bool :=
  match w with
  | [] => bool_decide (v = [])
  | x :: w' => bool_decide (v `prefix_of` w) || infix_ofb v w'
  end.

Lemma infix_ofb_spec v w : infix_ofb v w = true ↔ v `infix_of` w.
Proof.
  induction w as [|x w IH]; simpl.
  - rewrite bool_decide_eq_true. split; [intros ->; apply infix_of_nil|].
    apply infix_of_nil_inv.
  - by rewrite orb_true_iff, bool_decide_eq_true, IH, infix_of_cons_iff.
Qed.

#[export] Instance infix_of_dec : RelDecision (@infix_of A).
Proof.
  refine (λ v w, cast_if (decide (infix_ofb v w = true)));
    by rewrite <-infix_ofb_spec.
Defined.

End occurrence_dec.

#[export] Instance infix_of_proper {A} :
  Proper (flip infix_of ==> infix_of ==> impl) (@infix_of A).
Proof. intros v v' Hv w w' Hw H. by etrans; [|etrans]. Qed.

#[export] Hint Resolve infix_of_nil infix_of_app_l infix_of_app_r infix_of_cons
  prefix_infix_of suffix_infix_of : occ.
#[export] Hint Extern 0 (_ `infix_of` _) => reflexivity : occ.

(** ** Tactics *)

(** Destruct the boolean or decision the goal branches on, keeping the fact. *)
Ltac case_test :=
  match goal with
  | |- context [bool_decide ?P] => destruct (bool_decide_reflect P)
  | |- context [decide ?P] => destruct (decide P)
  | |- context [if ?b then _ else _] => destruct b eqn:?
  end.

(** Close a closed decidable goal by evaluation. *)
Ltac by_compute := vm_compute; first [reflexivity | tauto | discriminate | done].
