(* ===== verification/Overlap.v ===== *)
(** * Words that cannot overlap

    When no occurrence of one word can start inside an occurrence of
    another, the occurrences of a family of words in a text are disjoint,
    and the text is at least as long as all the words together.  The
    validator uses this for its six section names: it bounds from below the
    size of a document that passes.

    [overlap u v] says that a non-empty end of [u] is a beginning of [v];
    [clash u v] that an occurrence of [v] can start inside one of [u];
    [apart names] that no two words of the list clash; [holds names w]
    that [w] contains every word of such a family.  A text that holds a
    family is at least as long as the words together ([holds_length]), and
    one that is no longer is the words laid end to end ([holds_exact]). *)

From stdpp Require Import base tactics decidable option list numbers sets.
From S2P Require Import Prelude.

Section overlap.
Context {A : Type}.
Implicit Types (u v w s k d : list A) (names : list (list A)) (i j : nat).

Definition overlap u v : Prop :=
  ∃ s, s ≠ [] ∧ s `suffix_of` u ∧ s `prefix_of` v.

Definition clash u v : Prop := v `infix_of` u ∨ overlap u v.

Definition unrelated u v : Prop := ¬ clash u v ∧ ¬ clash v u.

Fixpoint apart names : Prop :=
  match names with
  | [] => True
  | n :: ns => Forall (unrelated n) ns ∧ apart ns
  end.

(** ** Two occurrences in one text *)

(** [v] starts [length d] elements into [u], before the end of [u]. *)
Lemma app_clash u v d k k' :
  u ++ k = d ++ v ++ k' → length d < length u → clash u v.
Proof.
  intros Heq Hd. apply app_eq_inv in Heq as [(u' & -> & Heq)|(u' & -> & _)].
  - assert (u' ≠ []) by (intros ->; rewrite app_nil_r in Hd; lia).
    symmetry in Heq. apply app_eq_inv in Heq as [(t & -> & _)|(t & -> & _)].
    + left. by exists d, t.
    + right. exists u'. split_and!; [done|by exists d|by exists t].
  - rewrite length_app in Hd. lia.
Qed.

Lemma occurs_at_clash u v w i j :
  occurs_at u w i → occurs_at v w j → i ≤ j < i + length u → clash u v.
Proof.
  intros (k1 & k2 & -> & <-) (k1' & k2' & Heq & <-) Hj.
  apply app_eq_inv in Heq as [(d & -> & Heq)|(d & -> & Heq)].
  - rewrite length_app in Hj. assert (d = []) as -> by (apply nil_length_inv; lia).
    apply (app_clash u v [] k2 k2'); [done|simpl; lia].
  - rewrite length_app in Hj. apply (app_clash u v d k2 k2'); [done|lia].
Qed.

(** A word that starts the text and does not clash with [v] leaves every
    occurrence of [v] in the rest of the text. *)
Lemma infix_of_after_prefix u v w :
  u `prefix_of` w → v `infix_of` w → ¬ clash u v → v `infix_of` drop (length u) w.
Proof.
  intros Hu [j Hv]%infix_of_occurs Hc.
  pose proof (prefix_length _ _ Hu). apply infix_of_drop; [done|].
  exists j. split; [|done]. apply occurs_at_0 in Hu.
  destruct (decide (length u ≤ j)); [done|].
  destruct Hc. apply (occurs_at_clash u v w 0 j); [done..|lia].
Qed.

(** ** Families of words *)

Lemma unrelated_sym u v : unrelated u v → unrelated v u.
Proof. by intros []. Qed.

Lemma apart_perm_impl names names' : names ≡ₚ names' → apart names → apart names'.
Proof.
  induction 1 as [|n l l' Hp IH|n m l|l l' l'' _ IH1 _ IH2]; simpl; [done| | |auto].
  - intros [Hf Ha]. split; [by rewrite <-Hp|auto].
  - intros [[Hnm Hn]%Forall_cons [Hm Ha]]. split_and!; [|done..].
    constructor; [by apply unrelated_sym|done].
Qed.

#[export] Instance apart_perm : Proper ((≡ₚ) ==> iff) apart.
Proof. intros l l' Hp. split; apply apart_perm_impl; [done|by symmetry]. Qed.

Context `{!EqDecision A}.

(** [w] holds the family [names]: the words are non-empty, no two clash,
    and every one occurs in [w]. *)
Definition holds names w : Prop :=
  apart names ∧ Forall (λ n, n ≠ []) names ∧ Forall (λ n, n `infix_of` w) names.

(** How a text holds a family: the family is empty, or the text holds it
    without its first element, or one of the words starts the text and the
    rest of the text holds the others. *)
Lemma holds_cases names w :
  holds names w →
  names = [] ∨
  (w ≠ [] ∧ holds names (tail w)) ∨
  (∃ n others, names ≡ₚ n :: others ∧ n ≠ [] ∧ n `prefix_of` w ∧
     holds others (drop (length n) w)).
Proof.
  intros (Hap & Hne & Hin). destruct names as [|n0 names0]; [by left|right].
  destruct (decide (Forall (λ n, n `infix_of` tail w) (n0 :: names0)))
    as [Hall|Hex].
  { left. split; [|done]. intros ->. apply Forall_cons in Hin as [Hn _].
    apply infix_of_nil_inv in Hn. by apply Forall_cons in Hne as [? _]. }
  right. apply not_Forall_Exists in Hex; [|apply _].
  apply Exists_exists in Hex as (n & [others Hp]%elem_of_Permutation & Hnw).
  rewrite Hp in Hap, Hne, Hin. simpl in Hap. destruct Hap as [Hun Hap].
  apply Forall_cons in Hne as [Hn Hne]. apply Forall_cons in Hin as [Hnin Hin].
  assert (n `prefix_of` w) as Hpre.
  { destruct w as [|x w]; [by apply infix_of_nil_inv in Hnin|].
    by apply infix_of_cons_iff in Hnin as [|]. }
  assert (Forall (λ m, m `infix_of` drop (length n) w) others) as Hrest.
  { rewrite Forall_forall in Hun, Hin |- *. intros m Hm.
    apply infix_of_after_prefix; [done|by apply Hin|]. by apply Hun. }
  by exists n, others.
Qed.

(** A text that holds a family is at least as long as its words laid end
    to end. *)
Lemma holds_length names w : holds names w → length (mjoin names) ≤ length w.
Proof.
  remember (length w) as len eqn:Hlen. revert w names Hlen.
  induction len as [len IH] using lt_wf_ind. intros w names -> Hh.
  destruct (holds_cases names w Hh)
    as [->|[[Hw Ht]|(n & others & Hp & Hn & Hpre & Ho)]]; [simpl; lia| |].
  - destruct w as [|x w]; [done|]. simpl in *.
    specialize (IH (length w) ltac:(lia) w names eq_refl Ht). lia.
  - pose proof (prefix_length _ _ Hpre).
    assert (0 < length n) by (destruct n; [done|simpl; lia]).
    specialize (IH (length (drop (length n) w)) ltac:(rewrite length_drop; lia)
                  (drop (length n) w) others eq_refl Ho).
    rewrite Hp. simpl. rewrite length_app. rewrite length_drop in IH. lia.
Qed.

Lemma apart_total_length names w :
  apart names → Forall (λ n, n ≠ []) names → Forall (λ n, n `infix_of` w) names →
  length (mjoin names) ≤ length w.
Proof. intros. by apply holds_length. Qed.

(** A text no longer than the words of a family it holds is the words laid
    end to end, in some order. *)
Lemma holds_exact names w :
  holds names w → length w ≤ length (mjoin names) →
  ∃ perm, perm ≡ₚ names ∧ w = mjoin perm.
Proof.
  remember (length w) as len eqn:Hlen. revert w names Hlen.
  induction len as [len IH] using lt_wf_ind. intros w names -> Hh Hle.
  destruct (holds_cases names w Hh)
    as [->|[[Hw Ht]|(n & others & Hp & Hn & Hpre & Ho)]].
  - exists []. split; [done|]. by apply nil_length_inv, Nat.le_0_r.
  - apply holds_length in Ht. destruct w as [|x w]; [done|]. simpl in *. lia.
  - pose proof (prefix_length _ _ Hpre).
    assert (0 < length n) by (destruct n; [done|simpl; lia]).
    rewrite Hp in Hle. simpl in Hle. rewrite length_app in Hle.
    destruct (IH (length (drop (length n) w)) ltac:(rewrite length_drop; lia)
                (drop (length n) w) others eq_refl Ho)
      as (perm & Hperm & Hd); [rewrite length_drop; lia|].
    exists (n :: perm). split; [by rewrite Hperm, Hp|]. simpl. rewrite <-Hd.
    destruct Hpre as [k ->]. by rewrite drop_app_length.
Qed.

(** Every word of a list occurs in the words laid end to end. *)
Lemma infix_of_mjoin_elem names n : n ∈ names → n `infix_of` mjoin names.
Proof.
  intros (l1 & l2 & ->)%list_elem_of_split. rewrite join_app. simpl.
  by apply infix_of_app_l, infix_of_app_r.
Qed.

(** ** Deciding the relations *)

(** The ends of [u] are its [drop]s. *)
Lemma overlap_drop u v :
  overlap u v ↔ Exists (λ n, drop n u `prefix_of` v) (seq 0 (length u)).
Proof.
  rewrite Exists_exists. split.
  - intros (s & Hs & [k ->] & Hv). exists (length k). split.
    + apply elem_of_seq. rewrite length_app.
      assert (0 < length s) by (destruct s; [done|simpl; lia]). lia.
    + by rewrite drop_app_length.
  - intros (n & Hn%elem_of_seq & Hv). exists (drop n u). split_and!; [|apply suffix_drop|done].
    intros Hd. apply (f_equal length) in Hd. rewrite length_drop in Hd. simpl in Hd. lia.
Qed.

#[export] Instance overlap_dec : RelDecision overlap.
Proof.
  refine (λ u v, cast_if (decide (Exists (λ n, drop n u `prefix_of` v) (seq 0 (length u)))));
    by rewrite overlap_drop.
Defined.

#[export] Instance clash_dec : RelDecision clash.
Proof. intros u v. unfold clash. apply _. Defined.

#[export] Instance unrelated_dec : RelDecision unrelated.
Proof. intros u v. unfold unrelated. apply _. Defined.

#[export] Instance apart_dec names : Decision (apart names).
Proof. induction names as [|n names IH]; simpl; apply _. Defined.

End overlap.
