(* ===== verification/JsString.v ===== *)
(** * JavaScript strings

    A JavaScript String value is a finite sequence of 16-bit unsigned
    integers (UTF-16 code units).  This file holds that data model: the
    range of a code unit, string literals of the source (all of them ASCII),
    the [substring] operation of the language specification, and
    concatenation, which is what a template literal evaluates to. *)

From Stdlib Require Import Ascii String.
From stdpp Require Import base tactics decidable option list numbers strings.
From S2P Require Import Prelude.

Open Scope Z_scope.

(** ** Code units *)

Definition is_code_unit (c : Z) : Prop := 0 ≤ c < 65536.

#[export] Instance is_code_unit_dec c : Decision (is_code_unit c).
Proof. unfold is_code_unit. apply _. Defined.

(** A well-formed String value: every element is a code unit. *)
Definition wf_string (s : list Z) : Prop := Forall is_code_unit s.

#[export] Instance wf_string_dec s : Decision (wf_string s).
Proof. unfold wf_string. apply _. Defined.

(** ** Literals *)

Definition code_unit_of_ascii (a : ascii) : Z := Z.of_N (N_of_ascii a).

(** The String value of a source literal whose characters are ASCII: one
    code unit per character. *)
Fixpoint lit (s : string) : list Z :=
  match s with
  | EmptyString => []
  | String a s' => code_unit_of_ascii a :: lit s'
  end.

(** ** Operations *)

(** The substring of [s] from [from] (inclusive) to [to] (exclusive). *)
Definition substring (s : list Z) (from to : nat) : list Z :=
  take (to - from) (drop from s).

(** A template literal with one substitution: the text before the
    placeholder followed by the substituted String. *)
Definition template (head : string) (subst : list Z) : list Z :=
  lit head ++ subst.

Close Scope Z_scope.

(** ** Facts *)

Lemma code_unit_of_ascii_range a : (0 ≤ code_unit_of_ascii a < 256)%Z.
Proof.
  unfold code_unit_of_ascii. pose proof (N_ascii_bounded a). lia.
Qed.

Lemma code_unit_of_ascii_inj : Inj (=) (=) code_unit_of_ascii.
Proof.
  intros a b H. unfold code_unit_of_ascii in H. apply N2Z.inj in H.
  by rewrite <-(ascii_N_embedding a), <-(ascii_N_embedding b), H.
Qed.

Lemma lit_wf s : wf_string (lit s).
Proof.
  induction s as [|a s IH]; constructor; [|done].
  pose proof (code_unit_of_ascii_range a). unfold is_code_unit. lia.
Qed.

Lemma lit_length s : length (lit s) = String.length s.
Proof. induction s as [|a s IH]; simpl; [done | by rewrite IH]. Qed.

Lemma lit_app s1 s2 : lit (s1 +:+ s2) = lit s1 ++ lit s2.
Proof. induction s1 as [|a s1 IH]; simpl; [done | by rewrite IH]. Qed.

#[export] Instance lit_inj : Inj (=) (=) lit.
Proof.
  intros s1. induction s1 as [|a s1 IH]; intros [|b s2] H; simplify_eq/=; [done|].
  f_equal; [by apply code_unit_of_ascii_inj | by apply IH].
Qed.

Lemma wf_string_app s1 s2 : wf_string (s1 ++ s2) ↔ wf_string s1 ∧ wf_string s2.
Proof. apply Forall_app. Qed.

Lemma wf_string_infix_of v s : v `infix_of` s → wf_string s → wf_string v.
Proof.
  intros (k1 & k2 & ->). rewrite !wf_string_app. tauto.
Qed.

Lemma substring_length s from to :
  to ≤ length s → length (substring s from to) = to - from.
Proof. intros H. unfold substring. rewrite length_take, length_drop. lia. Qed.

Lemma substring_full s : substring s 0 (length s) = s.
Proof. unfold substring. by rewrite drop_0, Nat.sub_0_r, firstn_all. Qed.

Lemma substring_wf s from to : wf_string s → wf_string (substring s from to).
Proof. intros H. unfold substring. by apply Forall_take, Forall_drop. Qed.

(** The window test of a search is the index form of [occurs_at]. *)
Lemma substring_occurs_at s v i :
  substring s i (i + length v) = v ∧ i + length v ≤ length s ↔ occurs_at v s i.
Proof.
  unfold substring. replace (i + length v - i) with (length v) by lia.
  rewrite occurs_at_take_drop. tauto.
Qed.

Lemma template_wf head subst : wf_string subst → wf_string (template head subst).
Proof. intros H. apply wf_string_app. split; [apply lit_wf | done]. Qed.

Lemma template_length head subst :
  length (template head subst) = String.length head + length subst.
Proof. unfold template. by rewrite length_app, lit_length. Qed.

Lemma template_suffix head subst : subst `suffix_of` template head subst.
Proof. by exists (lit head). Qed.

#[export] Hint Resolve lit_wf template_wf substring_wf : occ.
