(* ===== verification/Completion.v ===== *)
(** * Completions: normal results and thrown errors

    A JavaScript statement either completes normally or throws.  The script
    throws in one place ([throw new Error(...)], line 18) and calls one
    built-in that can throw ([fs.readFileSync], line 5); nothing is ever
    caught.  This file holds the Error objects that are thrown, the
    completion monad that sequences statements, and the [for ... of] loop
    over an array whose body may throw. *)

From Stdlib Require Import String.
From stdpp Require Import base tactics decidable option list numbers strings.
From S2P Require Import Prelude JsString.

(** ** Error objects *)

(** An Error object as far as the script can tell two of them apart: its
    [message], and the [code] property that system errors carry. *)
Record js_error : Type := mkError {
  message : list Z;
  code : option string
}.

#[export] Instance js_error_eq_dec : EqDecision js_error.
Proof. solve_decision. Defined.

(** [new Error(msg)] with a String argument. *)
Definition new_Error (msg : list Z) : js_error :=
  {| message := msg; code := None |}.

(** ** Completions *)

Inductive completion (A : Type) : Type :=
| Normal (a : A)
| Throw (e : js_error).
Arguments Normal {A} a.
Arguments Throw {A} e.

#[export] Instance completion_eq_dec `{EqDecision A} : EqDecision (completion A).
Proof. solve_decision. Defined.

#[export] Instance completion_ret : MRet completion := @Normal.

(** Sequencing: a throw skips everything that follows. *)
#[export] Instance completion_bind : MBind completion := λ A B f c,
  match c with
  | Normal a => f a
  | Throw e => Throw e
  end.

Definition is_normal {A} (c : completion A) : bool :=
  match c with Normal _ => true | Throw _ => false end.

(** The error a completion throws, if it throws. *)
Definition thrown {A} (c : completion A) : option js_error :=
  match c with Normal _ => None | Throw e => Some e end.

(** ** The [for ... of] loop over an array *)

(** [for (const x of l) { body x }]: the elements in index order, stopping at
    the first body that throws. *)
Fixpoint for_of {A} (body : A → completion unit) (l : list A) : completion unit :=
  match l with
  | [] => Normal ()
  | x :: l' => body x ≫= λ _, for_of body l'
  end.

(** ** Monad laws *)

Section laws.
Context {A B C : Type}.

Lemma bind_Normal (a : A) (f : A → completion B) : Normal a ≫= f = f a.
Proof. done. Qed.

Lemma bind_Throw e (f : A → completion B) : Throw e ≫= f = Throw e.
Proof. done. Qed.

Lemma bind_ret_r (c : completion A) : c ≫= Normal = c.
Proof. by destruct c. Qed.

Lemma bind_assoc (c : completion A) (f : A → completion B) (g : B → completion C) :
  (c ≫= f) ≫= g = c ≫= (λ a, f a ≫= g).
Proof. by destruct c. Qed.

Lemma bind_Normal_inv (c : completion A) (f : A → completion B) b :
  c ≫= f = Normal b ↔ ∃ a, c = Normal a ∧ f a = Normal b.
Proof. destruct c; simpl; [|split; [done|intros (? & ? & _); done]].
  split; [eauto|]. by intros (? & [= <-] & ?). Qed.

Lemma bind_Throw_inv (c : completion A) (f : A → completion B) e :
  c ≫= f = Throw e ↔ c = Throw e ∨ ∃ a, c = Normal a ∧ f a = Throw e.
Proof.
  destruct c; simpl.
  - split; [eauto|]. intros [?|(? & [= <-] & ?)]; done.
  - split; [intros [= ->]; by left|]. intros [[= ->]|(? & ? & _)]; done.
Qed.

End laws.

#[export] Hint Rewrite @bind_Normal @bind_Throw @bind_ret_r : js_simpl.

(** ** The loop *)

Section for_of.
Context {A : Type} (body : A → completion unit).
Implicit Types (l : list A) (e : js_error).

Lemma for_of_app l1 l2 :
  for_of body (l1 ++ l2) = for_of body l1 ≫= λ _, for_of body l2.
Proof.
  induction l1 as [|x l1 IH]; simpl; [done|].
  by rewrite bind_assoc; destruct (body x).
Qed.

(** The loop completes normally exactly when every body does. *)
Lemma for_of_Normal l :
  for_of body l = Normal () ↔ Forall (λ x, body x = Normal ()) l.
Proof.
  induction l as [|x l IH]; simpl; [by split|].
  rewrite Forall_cons, <-IH, bind_Normal_inv. split.
  - by intros ([] & ? & ?).
  - intros [? ?]. by exists ().
Qed.

(** The loop throws [e] exactly when [e] is what the first throwing body
    throws. *)
Lemma for_of_Throw l e :
  for_of body l = Throw e ↔
    ∃ i x, l !! i = Some x ∧ body x = Throw e ∧
           ∀ j y, l !! j = Some y → j < i → body y = Normal ().
Proof.
  revert e. induction l as [|x l IH]; intros e; simpl.
  { split; [done|]. by intros (i & y & ? & _). }
  rewrite bind_Throw_inv. setoid_rewrite IH. split.
  - intros [Hx|([] & Hx & i & y & Hy & He & Hmin)].
    + exists 0, x. split_and!; [done..|]. intros j z _ ?. lia.
    + exists (S i), y. split_and!; [done..|].
      intros [|j] z Hz ?; simplify_eq/=; [done|]. apply (Hmin j); [done|lia].
  - intros ([|i] & y & Hy & He & Hmin); simplify_eq/=; [by left|].
    right. exists (). split; [destruct (Hmin 0 x); [done|lia|done]|].
    exists i, y. split_and!; [done..|].
    intros j z Hz ?. apply (Hmin (S j)); [done|lia].
Qed.

End for_of.
