(* ===== verification/Utf8.v ===== *)
(** * Decoding UTF-8 into a String value

    [fs.readFileSync(path, "utf8")] (line 5) returns the file's bytes decoded
    as UTF-8.  The decoder is the one the Encoding standard specifies, in
    replacement mode: a state of (code point, bytes seen, bytes needed,
    lower and upper boundary), one handler call per byte, U+FFFD for every
    ill-formed sequence, and the offending byte handled again from the
    initial state.  No byte order mark is removed.  Code points above
    U+FFFF become surrogate pairs, since a String holds 16-bit code units.

    Bytes are [Z] in the range of [is_byte]. *)

From Stdlib Require Import String.
From stdpp Require Import base tactics decidable option list numbers strings.
From S2P Require Import Prelude JsString.

Open Scope Z_scope.

Definition is_byte (b : Z) : Prop := 0 ≤ b < 256.
Definition is_ascii (b : Z) : Prop := 0 ≤ b < 128.

#[export] Instance is_byte_dec b : Decision (is_byte b).
Proof. unfold is_byte. apply _. Defined.
#[export] Instance is_ascii_dec b : Decision (is_ascii b).
Proof. unfold is_ascii. apply _. Defined.

(** ** The decoder's state *)

Record decoder_state : Type := mkState {
  code_point : Z;
  bytes_seen : nat;
  bytes_needed : nat;
  lower_boundary : Z;
  upper_boundary : Z
}.

Definition initial_state : decoder_state := mkState 0 0 0 0x80 0xBF.

(** U+FFFD, emitted for an error. *)
Definition REPLACEMENT : Z := 0xFFFD.

(** ** The handler *)

(** A byte met when no bytes are needed: an ASCII byte is its own code
    point, a lead byte opens a sequence, anything else is an error.  The
    result is the next state and the code points emitted. *)
Definition handle_lead (byte : Z) : decoder_state * list Z :=
  if decide (0x00 ≤ byte ≤ 0x7F) then (initial_state, [byte])
  else if decide (0xC2 ≤ byte ≤ 0xDF) then
    (mkState (Z.land byte 0x1F) 0 1 0x80 0xBF, [])
  else if decide (0xE0 ≤ byte ≤ 0xEF) then
    (mkState (Z.land byte 0xF) 0 2
       (if decide (byte = 0xE0) then 0xA0 else 0x80)
       (if decide (byte = 0xED) then 0x9F else 0xBF), [])
  else if decide (0xF0 ≤ byte ≤ 0xF4) then
    (mkState (Z.land byte 0x7) 0 3
       (if decide (byte = 0xF0) then 0x90 else 0x80)
       (if decide (byte = 0xF4) then 0x8F else 0xBF), [])
  else (initial_state, [REPLACEMENT]).

(** One byte in any state.  Inside a sequence, a byte outside the boundaries
    is an error: the state is reset and the byte is handled again as a lead
    byte; a byte inside them extends the code point. *)
Definition handler (st : decoder_state) (byte : Z) : decoder_state * list Z :=
  if decide (bytes_needed st = 0%nat) then handle_lead byte
  else if decide (lower_boundary st ≤ byte ≤ upper_boundary st) then
    let cp := Z.lor (Z.shiftl (code_point st) 6) (Z.land byte 0x3F) in
    let seen := S (bytes_seen st) in
    if decide (seen = bytes_needed st) then (initial_state, [cp])
    else (mkState cp seen (bytes_needed st) 0x80 0xBF, [])
  else
    let '(st', out) := handle_lead byte in (st', REPLACEMENT :: out).

(** End of input: a sequence left open is an error. *)
Definition finish (st : decoder_state) : list Z :=
  if decide (bytes_needed st = 0%nat) then [] else [REPLACEMENT].

(** The code points of a byte sequence, from a state. *)
Fixpoint decode_from (st : decoder_state) (bytes : list Z) : list Z :=
  match bytes with
  | [] => finish st
  | b :: bs => let '(st', out) := handler st b in out ++ decode_from st' bs
  end.

(** ** Code points to code units *)

Definition utf16_units (cp : Z) : list Z :=
  if decide (cp < 0x10000) then [cp]
  else
    let c := cp - 0x10000 in
    [0xD800 + Z.shiftr c 10; 0xDC00 + Z.land c 0x3FF].

(** The String value [buffer.toString("utf8")] returns. *)
Definition utf8_decode (bytes : list Z) : list Z :=
  decode_from initial_state bytes ≫= utf16_units.

Close Scope Z_scope.

(** ** ASCII input *)

Lemma handle_lead_ascii b : is_ascii b → handle_lead b = (initial_state, [b]).
Proof. intros Hb. unfold handle_lead, is_ascii in *. case_decide; [done|lia]. Qed.

Lemma decode_from_initial_ascii bytes :
  Forall is_ascii bytes → decode_from initial_state bytes = bytes.
Proof.
  induction 1 as [|b bytes Hb _ IH]; simpl; [done|].
  unfold handler. simpl. by rewrite handle_lead_ascii, IH.
Qed.

Lemma utf16_units_ascii b : is_ascii b → utf16_units b = [b].
Proof. intros Hb. unfold utf16_units, is_ascii in *. case_decide; [done|lia]. Qed.

(** An ASCII file decodes to itself. *)
Lemma utf8_decode_ascii bytes : Forall is_ascii bytes → utf8_decode bytes = bytes.
Proof.
  intros H. unfold utf8_decode. rewrite decode_from_initial_ascii by done.
  induction H as [|b bytes Hb _ IH]; [done|].
  change (utf16_units b ++ (bytes ≫= utf16_units) = b :: bytes).
  by rewrite utf16_units_ascii, IH.
Qed.

(** ** Bit operations of the decoder as arithmetic *)

Section bits.
Open Scope Z_scope.

(** Masking the low [n] bits of a value known up to its high part. *)
Lemma land_ones_sub b n q :
  0 ≤ n → q * 2 ^ n ≤ b < (q + 1) * 2 ^ n → Z.land b (Z.ones n) = b - q * 2 ^ n.
Proof.
  intros Hn Hb. rewrite Z.land_ones by done. symmetry.
  apply (Z.mod_unique_pos b (2 ^ n) q); lia.
Qed.

(** Appending the six payload bits of a continuation byte. *)
Lemma continuation_bits cp b :
  0 ≤ cp → 0x80 ≤ b ≤ 0xBF →
  Z.lor (Z.shiftl cp 6) (Z.land b 0x3F) = cp * 64 + (b - 128).
Proof.
  intros Hcp Hb.
  change 0x3F with (Z.ones 6).
  rewrite (land_ones_sub b 6 2); [|lia|change (2 ^ 6) with 64; lia].
  rewrite Z.shiftl_mul_pow2 by lia. change (2 ^ 6) with 64.
  pose proof (Z.add_lor_land (cp * 64) (b - 2 * 64)) as Hadd.
  assert (Z.land (cp * 64) (b - 2 * 64) = 0) as Hz; [|lia].
  apply Z.bits_inj'; intros n Hn. rewrite Z.land_spec, Z.bits_0.
  destruct (decide (n < 6)).
  - change 64 with (2 ^ 6). by rewrite Z.mul_pow2_bits_low.
  - rewrite (Z.bits_above_log2 (b - 2 * 64)), andb_false_r; [done|lia|].
    destruct (decide (b = 128)) as [->|]; [simpl; lia|].
    apply Z.lt_le_trans with 6; [|lia].
    apply Z.log2_lt_pow2; [lia|]. change (2 ^ 6) with 64. lia.
Qed.

Lemma lead2_bits b : 0xC2 ≤ b ≤ 0xDF → Z.land b 0x1F = b - 0xC0.
Proof.
  intros Hb. change 0x1F with (Z.ones 5).
  rewrite (land_ones_sub b 5 6); change (2 ^ 5) with 32; lia.
Qed.

Lemma lead3_bits b : 0xE0 ≤ b ≤ 0xEF → Z.land b 0xF = b - 0xE0.
Proof.
  intros Hb. change 0xF with (Z.ones 4).
  rewrite (land_ones_sub b 4 14); change (2 ^ 4) with 16; lia.
Qed.

Lemma lead4_bits b : 0xF0 ≤ b ≤ 0xF4 → Z.land b 0x7 = b - 0xF0.
Proof.
  intros Hb. change 0x7 with (Z.ones 3).
  rewrite (land_ones_sub b 3 30); change (2 ^ 3) with 8; lia.
Qed.

End bits.

(** ** The decoder's invariant *)

(** A Unicode scalar value: a code point that is not a surrogate. *)
Definition is_scalar (cp : Z) : Prop :=
  (0 ≤ cp ≤ 0x10FFFF)%Z ∧ ¬ (0xD800 ≤ cp ≤ 0xDFFF)%Z.

#[export] Instance is_scalar_dec cp : Decision (is_scalar cp).
Proof. unfold is_scalar. apply _. Defined.

Fixpoint pow64 (n : nat) : Z :=
  match n with 0 => 1%Z | S n' => (64 * pow64 n')%Z end.

(** The least and the greatest code point an open sequence can still
    complete to, given the payload read so far, the boundaries of the next
    byte and the number of bytes that remain. *)
Definition first_cp (st : decoder_state) : Z :=
  ((code_point st * 64 + (lower_boundary st - 128))
   * pow64 (bytes_needed st - bytes_seen st - 1))%Z.

Definition last_cp (st : decoder_state) : Z :=
  ((code_point st * 64 + (upper_boundary st - 128))
   * pow64 (bytes_needed st - bytes_seen st - 1)
   + (pow64 (bytes_needed st - bytes_seen st - 1) - 1))%Z.

(** Between sequences nothing is constrained.  Inside a sequence the next
    byte is a continuation byte and every code point the sequence can
    complete to is a scalar value outside ASCII, above U+FFFF when the
    sequence has four bytes. *)
Definition state_ok (st : decoder_state) : Prop :=
  bytes_needed st = 0 ∨
  (bytes_seen st < bytes_needed st ≤ 3 ∧
   (0 ≤ code_point st)%Z ∧
   (0x80 ≤ lower_boundary st)%Z ∧ (upper_boundary st ≤ 0xBF)%Z ∧
   (128 ≤ first_cp st)%Z ∧ (last_cp st ≤ 0x10FFFF)%Z ∧
   ((last_cp st < 0xD800)%Z ∨ (0xDFFF < first_cp st)%Z) ∧
   (bytes_needed st = 3 → (0x10000 ≤ first_cp st)%Z)).

(** What one handler call may do, seen from outside: an ASCII byte comes
    out as itself, after U+FFFD if it cut a sequence short, and closes any
    sequence; any other byte yields only code points outside ASCII, and at
    least one of them unless a sequence is left open. *)
Definition handled (cut : bool) (b : Z) (st' : decoder_state) (out : list Z)
  : Prop :=
  (is_ascii b ∧ bytes_needed st' = 0 ∧
   out = if cut then [REPLACEMENT; b] else [b]) ∨
  (¬ is_ascii b ∧ Forall (λ c, ¬ is_ascii c) out ∧
   (bytes_needed st' = 0 → out ≠ [])).

Lemma initial_state_ok : state_ok initial_state.
Proof. by left. Qed.

Lemma is_scalar_REPLACEMENT : is_scalar REPLACEMENT.
Proof. compute_done. Qed.

Lemma is_scalar_ascii b : is_ascii b → is_scalar b.
Proof. unfold is_ascii, is_scalar. lia. Qed.

Ltac decoder_arith :=
  unfold state_ok, first_cp, last_cp, is_ascii, is_scalar, REPLACEMENT in *;
  simpl in *; repeat case_decide; lia.

Lemma handle_lead_spec b :
  state_ok (handle_lead b).1 ∧ Forall is_scalar (handle_lead b).2 ∧
  handled false b (handle_lead b).1 (handle_lead b).2.
Proof.
  unfold handle_lead. case_decide as H1; [|case_decide as H2;
    [|case_decide as H3; [|case_decide as H4]]]; simpl.
  - split_and!; [by left|repeat constructor; decoder_arith|].
    left. split_and!; [decoder_arith|done..].
  - split_and!; [right; rewrite lead2_bits by done; decoder_arith
                |constructor|right; split_and!; [decoder_arith|constructor|done]].
  - split_and!; [right; rewrite lead3_bits by done; decoder_arith
                |constructor|right; split_and!; [decoder_arith|constructor|done]].
  - split_and!; [right; rewrite lead4_bits by done; decoder_arith
                |constructor|right; split_and!; [decoder_arith|constructor|done]].
  - split_and!; [by left|repeat constructor; decoder_arith|].
    right. split_and!; [decoder_arith|repeat constructor; decoder_arith|done].
Qed.

Lemma handled_cut b st' out :
  handled false b st' out → handled true b st' (REPLACEMENT :: out).
Proof.
  intros [(Hb & Hn & ->)|(Hb & Hout & _)]; [by left|right].
  split_and!; [done| |done]. constructor; [|done]. unfold is_ascii, REPLACEMENT. lia.
Qed.

(** A continuation byte inside the boundaries: the sequence goes on, or it
    completes to a scalar value outside ASCII. *)
Lemma handle_continuation_spec st b :
  state_ok st → bytes_needed st ≠ 0 →
  (lower_boundary st ≤ b ≤ upper_boundary st)%Z →
  state_ok (handler st b).1 ∧ Forall is_scalar (handler st b).2 ∧
  handled true b (handler st b).1 (handler st b).2.
Proof.
  intros [?|(Hseen & Hcp & Hlo & Hhi & Hfirst & Hlast & Hsur)] Hn Hb; [done|].
  unfold handler. rewrite decide_False, decide_True by done.
  rewrite continuation_bits by lia.
  destruct st as [cp seen needed lo hi]; simpl in *.
  unfold first_cp, last_cp in *; simpl in *.
  assert (¬ is_ascii b) by (unfold is_ascii; lia).
  destruct needed as [|[|[|[|?]]]]; try lia;
    destruct seen as [|[|[|?]]]; try lia; simpl in *;
    (split_and!;
     [first [by left | right; unfold first_cp, last_cp; simpl; lia]
     |repeat constructor; unfold is_scalar; lia
     |right; split_and!; [done|repeat constructor; unfold is_ascii; lia|done]]).
Qed.

Lemma handler_spec st b :
  state_ok st →
  state_ok (handler st b).1 ∧ Forall is_scalar (handler st b).2 ∧
  handled (bool_decide (bytes_needed st ≠ 0)) b (handler st b).1 (handler st b).2.
Proof.
  intros Hok. destruct (decide (bytes_needed st = 0)) as [Hn|Hn].
  - rewrite bool_decide_eq_false_2 by (by intros []).
    unfold handler. rewrite decide_True by done. apply handle_lead_spec.
  - rewrite bool_decide_eq_true_2 by done.
    destruct (decide (lower_boundary st ≤ b ≤ upper_boundary st)%Z) as [Hb|Hb].
    { by apply handle_continuation_spec. }
    unfold handler. rewrite !decide_False by done.
    destruct (handle_lead_spec b) as (Hok' & Hsc & Hh).
    destruct (handle_lead b) as [st' out]; simpl in *. split_and!; [done| |].
    + constructor; [apply is_scalar_REPLACEMENT|done].
    + by apply handled_cut.
Qed.

(** ** Input and output agree on ASCII *)

Lemma decode_from_blocks bytes st :
  state_ok st →
  if decide (bytes_needed st = 0)
  then blocks is_ascii bytes (decode_from st bytes)
  else owed is_ascii bytes (decode_from st bytes).
Proof.
  revert st. induction bytes as [|b bytes IH]; intros st Hok; simpl.
  { unfold finish. case_decide; [constructor|].
    apply (owed_intro _ [REPLACEMENT]); [done| |constructor].
    repeat constructor. unfold is_ascii, REPLACEMENT. lia. }
  destruct (handler_spec st b Hok) as (Hok' & _ & Hh).
  destruct (handler st b) as [st' out]; simpl in *. specialize (IH st' Hok').
  destruct Hh as [(Hb & Hn' & ->)|(Hb & Hout & Hne)].
  - rewrite decide_True in IH by done.
    destruct (decide (bytes_needed st = 0)) as [Hn|Hn].
    + rewrite bool_decide_eq_false_2 by (by intros []). by constructor.
    + rewrite bool_decide_eq_true_2 by done.
      apply (owed_intro _ [REPLACEMENT]); [done| |by constructor].
      repeat constructor. unfold is_ascii, REPLACEMENT. lia.
  - assert (owed is_ascii bytes (out ++ decode_from st' bytes)) as Howed.
    { destruct (decide (bytes_needed st' = 0)) as [Hn'|Hn'].
      - apply owed_intro; auto.
      - by apply owed_emit_list. }
    destruct (decide (bytes_needed st = 0));
      [by apply owed_blocks | by apply owed_cons].
Qed.

Lemma utf16_units_scalar cp : is_scalar cp → Forall is_code_unit (utf16_units cp).
Proof.
  intros [Hr Hs]. unfold utf16_units, is_code_unit. case_decide as Hc.
  { repeat constructor; lia. }
  assert (0 ≤ Z.shiftr (cp - 65536) 10 < 1024)%Z.
  { rewrite Z.shiftr_div_pow2 by lia. change (2 ^ 10)%Z with 1024%Z.
    split; [apply Z.div_pos; lia | apply Z.div_lt_upper_bound; lia]. }
  assert (0 ≤ Z.land (cp - 65536) 1023 < 1024)%Z.
  { change 1023%Z with (Z.ones 10). rewrite Z.land_ones by lia.
    apply Z.mod_pos_bound. lia. }
  repeat constructor; lia.
Qed.

Lemma utf16_units_not_ascii cp :
  ¬ is_ascii cp →
  utf16_units cp ≠ [] ∧ Forall (λ c, ¬ is_ascii c) (utf16_units cp).
Proof.
  intros Hc. unfold utf16_units. case_decide as Hlt.
  { split; [done|by repeat constructor]. }
  assert (0 ≤ Z.shiftr (cp - 65536) 10)%Z by (apply Z.shiftr_nonneg; lia).
  assert (0 ≤ Z.land (cp - 65536) 1023)%Z by (apply Z.land_nonneg; lia).
  split; [done|]. repeat constructor; unfold is_ascii; lia.
Qed.

Lemma utf8_decode_blocks bytes : blocks is_ascii bytes (utf8_decode bytes).
Proof.
  apply blocks_bind; [apply utf16_units_ascii|apply utf16_units_not_ascii|].
  apply (decode_from_blocks bytes initial_state initial_state_ok).
Qed.

Lemma decode_from_scalar bytes st :
  state_ok st → Forall is_scalar (decode_from st bytes).
Proof.
  revert st. induction bytes as [|b bytes IH]; intros st Hok; simpl.
  { unfold finish. case_decide; repeat constructor; apply is_scalar_REPLACEMENT. }
  destruct (handler_spec st b Hok) as (Hok' & Hsc & _).
  destruct (handler st b) as [st' out]. apply Forall_app. auto.
Qed.

Lemma utf8_decode_wf bytes : wf_string (utf8_decode bytes).
Proof.
  eapply Forall_bind_intro; [|apply utf16_units_scalar].
  apply decode_from_scalar, initial_state_ok.
Qed.

(** ** The decoder's theorems *)

(** C9: decoding keeps the ASCII text of a file.  A non-empty run of ASCII
    code units occurs in the decoded text exactly when the same bytes occur
    in the file, whatever else the file holds: multi-byte characters,
    ill-formed sequences, truncated sequences. *)
Theorem utf8_decode_ascii_occurrences bytes v :
  Forall is_ascii v → v ≠ [] →
  v `infix_of` utf8_decode bytes ↔ v `infix_of` bytes.
Proof.
  intros Hv Hne. symmetry.
  apply (blocks_infix_of is_ascii); [apply utf8_decode_blocks|done..].
Qed.

Lemma utf8_decode_ascii_occurrences_witness :
  lit "Title" `infix_of` utf8_decode ([0xC3; 0xA9] ++ lit "Title" ++ [0xFF; 0xE2; 0x82])%Z
  ↔ lit "Title" `infix_of` ([0xC3; 0xA9] ++ lit "Title" ++ [0xFF; 0xE2; 0x82])%Z.
Proof. apply utf8_decode_ascii_occurrences; [compute_done | done]. Defined.

(** C34: whatever the bytes, the decoder emits only Unicode scalar values
    (never a surrogate, never a value above U+10FFFF), so the text the
    script searches is a sequence of 16-bit code units. *)
Theorem utf8_decode_scalar bytes :
  Forall is_scalar (decode_from initial_state bytes) ∧
  wf_string (utf8_decode bytes).
Proof.
  split; [apply decode_from_scalar, initial_state_ok | apply utf8_decode_wf].
Qed.
