(* ===== verification/Utf8Length.v ===== *)
(** * The size of a decoded text

    How many code units [fs.readFileSync(path, "utf8")] (line 5) returns for
    a file of a given size.  Every byte accounts for at most one code unit,
    and every code unit for at most three bytes: a sequence of four bytes
    completes to a code point above U+FFFF, which is two code units, and an
    ill-formed or truncated sequence of up to three bytes is one U+FFFD.

    The two counts are followed through the decoder by two potentials of
    its state: [open], one when a sequence is open, which pays for the
    U+FFFD the sequence may end in, and [pending], the bytes of the open
    sequence read so far, which the code units to come pay for. *)

From stdpp Require Import base tactics decidable option list numbers.
From S2P Require Import Prelude JsString Utf8.

(** The code units of a list of code points. *)
Definition units (out : list Z) : nat := length (out ≫= utf16_units).
Arguments units : simpl never.

Definition open (st : decoder_state) : nat :=
  if decide (bytes_needed st = 0) then 0 else 1.

Definition pending (st : decoder_state) : nat :=
  if decide (bytes_needed st = 0) then 0 else S (bytes_seen st).

(** ** Counting code units *)

Lemma utf16_units_length cp :
  length (utf16_units cp) = if decide (cp < 0x10000)%Z then 1 else 2.
Proof. unfold utf16_units. by case_decide. Qed.

Lemma units_cons cp out : units (cp :: out) = length (utf16_units cp) + units out.
Proof. unfold units. by rewrite bind_cons, length_app. Qed.

Lemma units_app out out' : units (out ++ out') = units out + units out'.
Proof. unfold units. by rewrite bind_app, length_app. Qed.

Ltac count_units :=
  unfold open, pending, REPLACEMENT in *;
  repeat first [progress cbn in * | case_decide | rewrite units_cons
               | rewrite utf16_units_length | progress change (units []) with 0];
  lia.

(** ** One byte *)

(** A byte met between sequences is one code unit or opens a sequence. *)
Lemma handle_lead_length b :
  units (handle_lead b).2 + open (handle_lead b).1 = 1 ∧
  1 ≤ 3 * units (handle_lead b).2 + pending (handle_lead b).1.
Proof. unfold handle_lead. repeat case_decide; count_units. Qed.

Lemma pending_le st : state_ok st → pending st ≤ 3.
Proof. intros [?|[? _]]; unfold pending; case_decide; lia. Qed.

(** A continuation byte inside the boundaries: the open sequence goes on,
    or it completes to one code unit after two or three bytes and to two
    code units after four. *)
Lemma handle_continuation_length st b :
  state_ok st → bytes_needed st ≠ 0 →
  (lower_boundary st ≤ b ≤ upper_boundary st)%Z →
  units (handler st b).2 + open (handler st b).1 ≤ 1 + open st ∧
  1 + pending st ≤ 3 * units (handler st b).2 + pending (handler st b).1.
Proof.
  intros [?|(Hseen & Hcp & Hlo & Hhi & _ & _ & _ & Hwide)] Hn Hb; [done|].
  unfold handler. rewrite decide_False, decide_True by done.
  rewrite continuation_bits by lia.
  destruct st as [cp seen needed lo hi]. unfold first_cp in Hwide. simpl in *.
  destruct needed as [|[|[|[|?]]]]; try lia;
    destruct seen as [|[|[|?]]]; try lia; count_units.
Qed.

Lemma handler_length st b :
  state_ok st →
  units (handler st b).2 + open (handler st b).1 ≤ 1 + open st ∧
  1 + pending st ≤ 3 * units (handler st b).2 + pending (handler st b).1.
Proof.
  intros Hok. pose proof (handle_lead_length b) as Hlead.
  pose proof (pending_le st Hok).
  destruct (decide (bytes_needed st = 0)) as [Hn|Hn].
  { unfold handler. rewrite decide_True by done. count_units. }
  destruct (decide (lower_boundary st ≤ b ≤ upper_boundary st)%Z) as [Hb|Hb].
  { by apply handle_continuation_length. }
  unfold handler. rewrite !decide_False by done.
  destruct (handle_lead b) as [st' out]. count_units.
Qed.

(** ** A whole input *)

Lemma decode_from_length bytes st :
  state_ok st →
  units (decode_from st bytes) ≤ length bytes + open st ∧
  length bytes + pending st ≤ 3 * units (decode_from st bytes).
Proof.
  revert st. induction bytes as [|b bytes IH]; intros st Hok.
  { pose proof (pending_le st Hok). simpl. unfold finish. count_units. }
  destruct (handler_spec st b Hok) as (Hok' & _ & _).
  pose proof (handler_length st b Hok) as Hstep. simpl.
  destruct (handler st b) as [st' out]. specialize (IH st' Hok').
  rewrite units_app. simpl in *. lia.
Qed.

(** ** The theorem *)

(** C12: the size of the text read.  From any state the decoder can be
    in, the code units still to come are at most the bytes still to read,
    and one more if a sequence is open; the bytes still to read, with those
    of the open sequence, are at most three times the code units to come.
    For a whole file: the String that the read returns has at most as many
    code units as the file has bytes, and at least a third as many. *)
Theorem utf8_decode_length st bytes :
  state_ok st →
  units (decode_from st bytes) ≤ length bytes + open st ∧
  length bytes + pending st ≤ 3 * units (decode_from st bytes) ∧
  (st = initial_state →
     length (utf8_decode bytes) ≤ length bytes ≤ 3 * length (utf8_decode bytes)).
Proof.
  intros Hok. destruct (decode_from_length bytes st Hok) as [Hle Hge].
  split_and!; [done..|]. intros ->.
  unfold utf8_decode. fold (units (decode_from initial_state bytes)).
  change (open initial_state) with 0 in Hle.
  change (pending initial_state) with 0 in Hge. lia.
Qed.

(** An instance: the euro sign, three bytes for one code unit, and then
    [A], one byte for one code unit. *)
Lemma utf8_decode_length_witness :
  units (decode_from initial_state [0xE2; 0x82; 0xAC; 0x41]%Z)
    ≤ length [0xE2; 0x82; 0xAC; 0x41]%Z + open initial_state ∧
  length [0xE2; 0x82; 0xAC; 0x41]%Z + pending initial_state
    ≤ 3 * units (decode_from initial_state [0xE2; 0x82; 0xAC; 0x41]%Z) ∧
  (initial_state = initial_state →
     length (utf8_decode [0xE2; 0x82; 0xAC; 0x41]%Z)
       ≤ length [0xE2; 0x82; 0xAC; 0x41]%Z
       ≤ 3 * length (utf8_decode [0xE2; 0x82; 0xAC; 0x41]%Z)).
Proof. apply utf8_decode_length, initial_state_ok. Defined.
