(* ===== verification/Utf8Encode.v ===== *)
(** * Encoding UTF-8, and the decoder checked against it

    The encoder of the Encoding standard.  The script meets it once:
    [console.log] (line 22) writes its line to standard output as UTF-8.
    It is also the reference for the decoder of [Utf8]: a document written
    as the UTF-8 encoding of a sequence of Unicode scalar values is read
    back by [fs.readFileSync(path, "utf8")] (line 5) as exactly that
    sequence, with no replacement character, and only such documents are
    read without one. *)

From stdpp Require Import base tactics decidable option list numbers.
From S2P Require Import Prelude JsString Utf8.

Open Scope Z_scope.

(** ** The encoder *)

(** The continuation bytes of a code point, [count] of them, highest bits
    first: [0x80 | ((cp >> 6 * (count - 1)) & 0x3F)] and so on down. *)
Fixpoint continuation_bytes (cp : Z) (count : nat) : list Z :=
  match count with
  | O => []
  | S c =>
      Z.lor 0x80 (Z.land (Z.shiftr cp (6 * Z.of_nat c)) 0x3F)
      :: continuation_bytes cp c
  end.

(** The bytes of one code point. *)
Definition utf8_encode_cp (cp : Z) : list Z :=
  if decide (cp ≤ 0x7F) then [cp]
  else
    let '(count, offset) :=
      if decide (cp ≤ 0x7FF) then (1%nat, 0xC0)
      else if decide (cp ≤ 0xFFFF) then (2%nat, 0xE0)
      else (3%nat, 0xF0) in
    (Z.shiftr cp (6 * Z.of_nat count) + offset) :: continuation_bytes cp count.

Definition utf8_encode (cps : list Z) : list Z := cps ≫= utf8_encode_cp.

Ltac euclid := Z.to_euclidean_division_equations; lia.
Ltac boundary := first [done | repeat case_decide; euclid].

(** ** The encoder's bytes as arithmetic *)

Lemma lor_continuation x : 0 ≤ x → Z.lor 0x80 (Z.land x 0x3F) = 128 + x mod 64.
Proof.
  intros Hx. change 0x3F with (Z.ones 6). rewrite Z.land_ones by lia.
  change (2 ^ 6) with 64. pose proof (Z.mod_pos_bound x 64 eq_refl) as Hm.
  pose proof (Z.add_lor_land 128 (x mod 64)) as Hadd.
  assert (Z.land 128 (x mod 64) = 0) as Hz; [|lia].
  apply Z.bits_inj'; intros n Hn. rewrite Z.land_spec, Z.bits_0.
  destruct (decide (n = 7)) as [->|].
  - rewrite (Z.bits_above_log2 (x mod 64)), andb_false_r; [done|lia|].
    destruct (decide (x mod 64 = 0)) as [->|]; [simpl; lia|].
    apply Z.log2_lt_pow2; [lia|]. change (2 ^ 7) with 128. lia.
  - change 128 with (2 ^ 7). by rewrite Z.pow2_bits_eqb, (proj2 (Z.eqb_neq 7 n)).
Qed.

Lemma continuation_bytes_S cp c :
  0 ≤ cp →
  continuation_bytes cp (S c)
  = (128 + (cp / 2 ^ (6 * Z.of_nat c)) mod 64) :: continuation_bytes cp c.
Proof.
  intros Hcp. cbn [continuation_bytes]. rewrite Z.shiftr_div_pow2 by lia.
  rewrite lor_continuation; [done|]. apply Z.div_pos; lia.
Qed.

(** The exponents of the encoder, evaluated. *)
Ltac encoder_shifts :=
  rewrite Z.shiftr_div_pow2, !continuation_bytes_S by lia;
  cbn [continuation_bytes Z.of_nat Pos.of_succ_nat Pos.succ Z.mul Pos.mul
       Pos.add Z.pow Z.pow_pos Pos.iter];
  rewrite ?Z.div_1_r.

(** The four shapes of an encoded code point. *)
Lemma utf8_encode_cp_1 cp : 0 ≤ cp ≤ 0x7F → utf8_encode_cp cp = [cp].
Proof. intros Hcp. unfold utf8_encode_cp. by rewrite decide_True by lia. Qed.

Lemma utf8_encode_cp_2 cp :
  0x80 ≤ cp ≤ 0x7FF →
  utf8_encode_cp cp = [cp / 64 + 0xC0; 128 + cp mod 64].
Proof.
  intros Hcp. unfold utf8_encode_cp.
  rewrite decide_False, decide_True by lia.
  by encoder_shifts.
Qed.

Lemma utf8_encode_cp_3 cp :
  0x800 ≤ cp ≤ 0xFFFF →
  utf8_encode_cp cp = [cp / 4096 + 0xE0; 128 + (cp / 64) mod 64; 128 + cp mod 64].
Proof.
  intros Hcp. unfold utf8_encode_cp.
  rewrite !decide_False, decide_True by lia.
  by encoder_shifts.
Qed.

Lemma utf8_encode_cp_4 cp :
  0x10000 ≤ cp →
  utf8_encode_cp cp
  = [cp / 262144 + 0xF0; 128 + (cp / 4096) mod 64; 128 + (cp / 64) mod 64;
     128 + cp mod 64].
Proof.
  intros Hcp. unfold utf8_encode_cp. rewrite !decide_False by lia.
  by encoder_shifts.
Qed.

(** ** The decoder on lead and continuation bytes *)

Lemma handler_initial b : handler initial_state b = handle_lead b.
Proof. done. Qed.

Lemma handle_lead_2 b :
  0xC2 ≤ b ≤ 0xDF → handle_lead b = (mkState (b - 0xC0) 0 1 0x80 0xBF, []).
Proof.
  intros Hb. unfold handle_lead.
  rewrite decide_False, decide_True by lia. by rewrite lead2_bits.
Qed.

Lemma handle_lead_3 b :
  0xE0 ≤ b ≤ 0xEF →
  handle_lead b
  = (mkState (b - 0xE0) 0 2 (if decide (b = 0xE0) then 0xA0 else 0x80)
       (if decide (b = 0xED) then 0x9F else 0xBF), []).
Proof.
  intros Hb. unfold handle_lead.
  rewrite !decide_False, decide_True by lia. by rewrite lead3_bits.
Qed.

Lemma handle_lead_4 b :
  0xF0 ≤ b ≤ 0xF4 →
  handle_lead b
  = (mkState (b - 0xF0) 0 3 (if decide (b = 0xF0) then 0x90 else 0x80)
       (if decide (b = 0xF4) then 0x8F else 0xBF), []).
Proof.
  intros Hb. unfold handle_lead.
  rewrite !decide_False, decide_True by lia. by rewrite lead4_bits.
Qed.

(** A byte inside the boundaries of an open sequence. *)
Lemma handler_continuation cp seen needed lo hi b :
  needed ≠ 0%nat → 0 ≤ cp → 0x80 ≤ lo → hi ≤ 0xBF → lo ≤ b ≤ hi →
  handler (mkState cp seen needed lo hi) b
  = if decide (S seen = needed) then (initial_state, [cp * 64 + (b - 128)])
    else (mkState (cp * 64 + (b - 128)) (S seen) needed 0x80 0xBF, []).
Proof.
  intros Hn Hcp Hlo Hhi Hb. unfold handler. simpl.
  rewrite decide_False, decide_True by done.
  by rewrite continuation_bits by lia.
Qed.

(** ** The round trip *)

Lemma decode_encode_cp cp rest :
  is_scalar cp →
  decode_from initial_state (utf8_encode_cp cp ++ rest)
  = cp :: decode_from initial_state rest.
Proof.
  intros [Hr Hs].
  destruct (decide (cp ≤ 0x7F)); [|destruct (decide (cp ≤ 0x7FF));
    [|destruct (decide (cp ≤ 0xFFFF))]].
  - rewrite utf8_encode_cp_1 by lia. simpl.
    rewrite handler_initial, handle_lead_ascii; [done|unfold is_ascii; lia].
  - rewrite utf8_encode_cp_2 by lia. simpl.
    rewrite handler_initial, handle_lead_2 by euclid.
    rewrite handler_continuation by boundary. simpl.
    f_equal. euclid.
  - rewrite utf8_encode_cp_3 by lia. simpl.
    rewrite handler_initial, handle_lead_3 by euclid.
    rewrite handler_continuation by boundary. simpl.
    rewrite handler_continuation by boundary. simpl.
    f_equal. euclid.
  - rewrite utf8_encode_cp_4 by lia. simpl.
    rewrite handler_initial, handle_lead_4 by euclid.
    rewrite handler_continuation by boundary. simpl.
    rewrite handler_continuation by boundary. simpl.
    rewrite handler_continuation by boundary. simpl.
    f_equal. euclid.
Qed.

Lemma decode_encode cps :
  Forall is_scalar cps → decode_from initial_state (utf8_encode cps) = cps.
Proof.
  induction 1 as [|cp cps Hcp _ IH]; [done|].
  change (utf8_encode (cp :: cps)) with (utf8_encode_cp cp ++ utf8_encode cps).
  by rewrite decode_encode_cp, IH.
Qed.

(** A byte order mark at the head of the input is decoded like any other
    character: it is U+FEFF in the text. *)
Lemma utf8_decode_bom bytes :
  utf8_decode ([0xEF; 0xBB; 0xBF] ++ bytes) = 0xFEFF :: utf8_decode bytes.
Proof.
  unfold utf8_decode. change [0xEF; 0xBB; 0xBF] with (utf8_encode_cp 0xFEFF).
  by rewrite decode_encode_cp by compute_done.
Qed.

(** Every byte the encoder writes is a byte. *)
Lemma utf8_encode_cp_bytes cp : is_scalar cp → Forall is_byte (utf8_encode_cp cp).
Proof.
  intros [Hr Hs]. unfold is_byte.
  destruct (decide (cp ≤ 0x7F)); [|destruct (decide (cp ≤ 0x7FF));
    [|destruct (decide (cp ≤ 0xFFFF))]].
  - rewrite utf8_encode_cp_1 by lia. repeat constructor; lia.
  - rewrite utf8_encode_cp_2 by lia. repeat constructor; euclid.
  - rewrite utf8_encode_cp_3 by lia. repeat constructor; euclid.
  - rewrite utf8_encode_cp_4 by lia. repeat constructor; euclid.
Qed.

(** ** The converse: what decodes without an error was encoded *)

Lemma utf8_encode_cp_length cp : (0 < length (utf8_encode_cp cp))%nat.
Proof. unfold utf8_encode_cp. repeat case_decide; simpl; lia. Qed.

(** The decoder at the start of [bytes] reads the encoding of one scalar
    value and goes on from the initial state, or it emits U+FFFD. *)
Definition reads_one (bytes : list Z) : Prop :=
  (∃ cp rest, is_scalar cp ∧ bytes = utf8_encode_cp cp ++ rest ∧
     decode_from initial_state bytes = cp :: decode_from initial_state rest) ∨
  (∃ tl, decode_from initial_state bytes = REPLACEMENT :: tl).

(** An open sequence meets the end of the input or a byte outside its
    boundaries, which is an error, or a byte inside them. *)
Lemma decode_from_open cp seen needed lo hi bytes :
  needed ≠ 0%nat → 0 ≤ cp → 0x80 ≤ lo → hi ≤ 0xBF →
  (∃ tl, decode_from (mkState cp seen needed lo hi) bytes = REPLACEMENT :: tl) ∨
  (∃ b rest, bytes = b :: rest ∧ lo ≤ b ≤ hi ∧
     decode_from (mkState cp seen needed lo hi) bytes =
       if decide (S seen = needed)
       then cp * 64 + (b - 128) :: decode_from initial_state rest
       else decode_from (mkState (cp * 64 + (b - 128)) (S seen) needed 0x80 0xBF)
              rest).
Proof.
  intros Hn Hcp Hlo Hhi. destruct bytes as [|b rest].
  { left. exists []. simpl. unfold finish. simpl. by rewrite decide_False. }
  destruct (decide (lo ≤ b ≤ hi)) as [Hb|Hb].
  - right. exists b, rest. split; [done|split; [done|]]. cbn [decode_from].
    rewrite handler_continuation by done. by case_decide.
  - left. cbn [decode_from]. unfold handler. simpl. rewrite !decide_False by done.
    destruct (handle_lead b) as [st' out]. by eexists.
Qed.

(** The same with the state a lead byte leaves: [k] continuation bytes are
    read and the code point is completed, or U+FFFD comes first. *)
Ltac open_sequence H :=
  match goal with
  | |- context [decode_from (mkState ?cp ?seen ?needed ?lo ?hi) ?bytes] =>
      destruct (decode_from_open cp seen needed lo hi bytes)
        as [[? H]|(? & ? & -> & ? & H)];
      [done|repeat case_decide; lia..| |];
      [right; rewrite H; by eexists|rewrite H; clear H; simpl]
  end.

Lemma reads_one_ascii b bytes : 0 ≤ b ≤ 0x7F → reads_one (b :: bytes).
Proof.
  intros Hb. left. exists b, bytes. cbn [decode_from].
  rewrite handler_initial, handle_lead_ascii, utf8_encode_cp_1
    by (unfold is_ascii; lia).
  split_and!; [unfold is_scalar; lia|done..].
Qed.

(** The bytes read are the encoding of the code point completed. *)
Ltac same_bytes := simpl; repeat case_decide; repeat (f_equal; try euclid).

Lemma reads_one_2 b bytes : 0xC2 ≤ b ≤ 0xDF → reads_one (b :: bytes).
Proof.
  intros Hb. unfold reads_one. cbn [decode_from].
  rewrite handler_initial, handle_lead_2 by done. simpl.
  open_sequence H. left. eexists _, _. split_and!; [| |done].
  - unfold is_scalar. lia.
  - rewrite utf8_encode_cp_2 by lia. same_bytes.
Qed.

Lemma reads_one_3 b bytes : 0xE0 ≤ b ≤ 0xEF → reads_one (b :: bytes).
Proof.
  intros Hb. unfold reads_one. cbn [decode_from].
  rewrite handler_initial, handle_lead_3 by done. simpl.
  open_sequence H. open_sequence H. left. eexists _, _. split_and!; [| |done].
  - unfold is_scalar. repeat case_decide; lia.
  - rewrite utf8_encode_cp_3 by (repeat case_decide; lia). same_bytes.
Qed.

Lemma reads_one_4 b bytes : 0xF0 ≤ b ≤ 0xF4 → reads_one (b :: bytes).
Proof.
  intros Hb. unfold reads_one. cbn [decode_from].
  rewrite handler_initial, handle_lead_4 by done. simpl.
  open_sequence H. open_sequence H. open_sequence H.
  left. eexists _, _. split_and!; [| |done].
  - unfold is_scalar. repeat case_decide; lia.
  - rewrite utf8_encode_cp_4 by (repeat case_decide; lia). same_bytes.
Qed.

Lemma reads_one_cons b bytes : reads_one (b :: bytes).
Proof.
  destruct (decide (0 ≤ b ≤ 0x7F)); [by apply reads_one_ascii|].
  destruct (decide (0xC2 ≤ b ≤ 0xDF)); [by apply reads_one_2|].
  destruct (decide (0xE0 ≤ b ≤ 0xEF)); [by apply reads_one_3|].
  destruct (decide (0xF0 ≤ b ≤ 0xF4)); [by apply reads_one_4|].
  right. cbn [decode_from]. rewrite handler_initial. unfold handle_lead.
  rewrite !decide_False by done. by eexists.
Qed.

Lemma encode_decode bytes :
  REPLACEMENT ∉ decode_from initial_state bytes →
  utf8_encode (decode_from initial_state bytes) = bytes.
Proof.
  remember (length bytes) as len eqn:Hlen. revert bytes Hlen.
  induction len as [len IH] using lt_wf_ind. intros [|b bytes] -> Hclean; [done|].
  destruct (reads_one_cons b bytes) as [(cp & rest & Hcp & Hb & Hd)|[tl Htl]].
  - rewrite Hd in Hclean |- *. apply not_elem_of_cons in Hclean as [_ Hclean].
    change (utf8_encode (cp :: ?l)) with (utf8_encode_cp cp ++ utf8_encode l).
    rewrite (IH (length rest)), Hb; [done| |done..].
    rewrite Hb, length_app. pose proof (utf8_encode_cp_length cp). lia.
  - rewrite Htl in Hclean. destruct Hclean. constructor.
Qed.

Close Scope Z_scope.

(** ** The round-trip theorem *)

(** C10: well-formed UTF-8 is decoded exactly.  The encoding of any sequence
    of Unicode scalar values is a sequence of bytes, and decoding it gives
    back the same code points, in UTF-16, with no replacement character:
    the text the script searches is the text that was written. *)
Theorem utf8_decode_encode cps :
  Forall is_scalar cps →
  Forall is_byte (utf8_encode cps) ∧
  decode_from initial_state (utf8_encode cps) = cps ∧
  utf8_decode (utf8_encode cps) = cps ≫= utf16_units.
Proof.
  intros Hcps. split_and!.
  - eapply Forall_bind_intro; [exact Hcps|]. apply utf8_encode_cp_bytes.
  - by apply decode_encode.
  - unfold utf8_decode. by rewrite decode_encode.
Qed.

Lemma utf8_decode_encode_witness :
  Forall is_byte (utf8_encode [0x54; 0xE9; 0x20AC; 0xD7FF; 0xE000; 0x1F600; 0x10FFFF]%Z) ∧
  decode_from initial_state
    (utf8_encode [0x54; 0xE9; 0x20AC; 0xD7FF; 0xE000; 0x1F600; 0x10FFFF]%Z)
  = [0x54; 0xE9; 0x20AC; 0xD7FF; 0xE000; 0x1F600; 0x10FFFF]%Z ∧
  utf8_decode (utf8_encode [0x54; 0xE9; 0x20AC; 0xD7FF; 0xE000; 0x1F600; 0x10FFFF]%Z)
  = [0x54; 0xE9; 0x20AC; 0xD7FF; 0xE000; 0x1F600; 0x10FFFF]%Z ≫= utf16_units.
Proof. apply utf8_decode_encode. compute_done. Defined.

(** C11: the decoder accepts well-formed UTF-8 and nothing else.  A byte
    sequence decodes without a replacement character exactly when it is the
    encoding of Unicode scalar values other than U+FFFD, and then encoding
    the decoded code points gives the bytes back: no overlong form, no
    encoded surrogate and no truncated sequence is read as a character. *)
Theorem utf8_well_formed_iff bytes :
  REPLACEMENT ∉ decode_from initial_state bytes ↔
    utf8_encode (decode_from initial_state bytes) = bytes ∧
    ∃ cps, Forall is_scalar cps ∧ (REPLACEMENT ∉ cps) ∧ bytes = utf8_encode cps.
Proof.
  split.
  - intros H. split; [by apply encode_decode|].
    exists (decode_from initial_state bytes).
    split_and!; [apply decode_from_scalar, initial_state_ok|done|].
    by rewrite encode_decode.
  - intros (_ & cps & Hs & Hr & ->). by rewrite decode_encode.
Qed.
