(* ===== verification/Utf16.v ===== *)
(** * String values as text: UTF-16 code units and code points

    A String is a sequence of 16-bit code units; the text it stands for is
    the sequence of code points its surrogate pairs combine to.  The script
    meets this twice: the text read from the file is turned into code units
    ([utf16_units] of [Utf8], line 5), and the line printed by
    [console.log] (line 22) goes to standard output as the UTF-8 encoding of
    its code points, a lone surrogate being written as U+FFFD.

    The file defines [code_points] and the well-formed Strings
    ([is_well_formed]), and proves the round trips between code points,
    code units and bytes. *)

From Stdlib Require Import String.
From stdpp Require Import base tactics decidable option list numbers.
From S2P Require Import Prelude JsString Utf8 Utf8Encode.

Open Scope Z_scope.

Definition is_high (c : Z) : Prop := 0xD800 ≤ c ≤ 0xDBFF.
Definition is_low (c : Z) : Prop := 0xDC00 ≤ c ≤ 0xDFFF.

#[export] Instance is_high_dec c : Decision (is_high c).
Proof. unfold is_high. apply _. Defined.
#[export] Instance is_low_dec c : Decision (is_low c).
Proof. unfold is_low. apply _. Defined.

(** The code point of a surrogate pair. *)
Definition pair_code_point (lead trail : Z) : Z :=
  (lead - 0xD800) * 0x400 + (trail - 0xDC00) + 0x10000.

(** The code points of a String, as an encoder reads them: a leading
    surrogate followed by a trailing one is one code point, any other
    surrogate is replaced by U+FFFD, any other code unit is itself. *)
Fixpoint code_points (s : list Z) : list Z :=
  match s with
  | [] => []
  | c :: s' =>
      if decide (is_high c) then
        match s' with
        | d :: s'' =>
            if decide (is_low d) then pair_code_point c d :: code_points s''
            else REPLACEMENT :: code_points s'
        | [] => [REPLACEMENT]
        end
      else if decide (is_low c) then REPLACEMENT :: code_points s'
      else c :: code_points s'
  end.

(** [String.prototype.isWellFormed]: no surrogate stands alone. *)
Fixpoint is_well_formed (s : list Z) : bool :=
  match s with
  | [] => true
  | c :: s' =>
      if decide (is_high c) then
        match s' with
        | d :: s'' => bool_decide (is_low d) && is_well_formed s''
        | [] => false
        end
      else bool_decide (¬ is_low c) && is_well_formed s'
  end.

(** The bytes of a String written as UTF-8. *)
Definition utf8_write (s : list Z) : list Z := utf8_encode (code_points s).

(** ** Code points of code units *)

Lemma pair_code_point_range lead trail :
  is_high lead → is_low trail → 0x10000 ≤ pair_code_point lead trail ≤ 0x10FFFF.
Proof. unfold is_high, is_low, pair_code_point. lia. Qed.

Lemma utf16_units_bmp cp : cp < 0x10000 → utf16_units cp = [cp].
Proof. intros H. unfold utf16_units. by rewrite decide_True. Qed.

(** Above U+FFFF a code point is a surrogate pair, and the pair gives the
    code point back. *)
Lemma utf16_units_pair cp :
  0x10000 ≤ cp ≤ 0x10FFFF →
  ∃ lead trail, utf16_units cp = [lead; trail] ∧ is_high lead ∧ is_low trail ∧
                pair_code_point lead trail = cp.
Proof.
  intros Hcp. unfold utf16_units. rewrite decide_False by lia.
  eexists _, _. split; [done|].
  change 0x3FF with (Z.ones 10). rewrite Z.land_ones, Z.shiftr_div_pow2 by lia.
  change (2 ^ 10) with 1024. unfold is_high, is_low, pair_code_point. euclid.
Qed.

Lemma utf16_units_of_pair lead trail :
  is_high lead → is_low trail →
  utf16_units (pair_code_point lead trail) = [lead; trail].
Proof.
  intros Hl Ht. pose proof (pair_code_point_range _ _ Hl Ht) as Hr.
  unfold utf16_units. rewrite decide_False by lia.
  change 0x3FF with (Z.ones 10). rewrite Z.land_ones, Z.shiftr_div_pow2 by lia.
  change (2 ^ 10) with 1024. unfold is_high, is_low, pair_code_point in *.
  f_equal; [euclid|f_equal; euclid].
Qed.

Lemma code_points_units cps :
  Forall is_scalar cps → code_points (cps ≫= utf16_units) = cps.
Proof.
  induction 1 as [|cp cps [Hr Hs] _ IH]; [done|].
  change ((cp :: cps) ≫= utf16_units) with (utf16_units cp ++ (cps ≫= utf16_units)).
  destruct (decide (cp < 0x10000)) as [Hlt|Hge].
  - rewrite utf16_units_bmp by done. simpl.
    rewrite !decide_False by (unfold is_high, is_low; lia). by rewrite IH.
  - destruct (utf16_units_pair cp) as (lead & trail & -> & Hl & Ht & <-); [lia|].
    simpl. rewrite !decide_True by done. by rewrite IH.
Qed.

(** ** Code units of code points *)

Lemma code_points_scalar s : wf_string s → Forall is_scalar (code_points s).
Proof.
  remember (length s) as len eqn:Hlen. revert s Hlen.
  induction len as [len IH] using lt_wf_ind. intros [|c s] -> Hwf; [constructor|].
  unfold wf_string in *. apply Forall_cons_1 in Hwf as [Hc Hwf].
  unfold is_code_unit in Hc. simpl.
  destruct (decide (is_high c)) as [Hh|Hh];
    [destruct s as [|d s]; [|destruct (decide (is_low d)) as [Hl|Hl]]
    |destruct (decide (is_low c)) as [Hl|Hl]].
  - repeat constructor; apply is_scalar_REPLACEMENT.
  - constructor; [pose proof (pair_code_point_range _ _ Hh Hl); unfold is_scalar; lia|].
    apply Forall_cons_1 in Hwf as [_ Hwf]. apply (IH (length s)); [simpl; lia|done..].
  - constructor; [apply is_scalar_REPLACEMENT|]. apply (IH (length (d :: s))); [simpl; lia|done..].
  - constructor; [apply is_scalar_REPLACEMENT|]. apply (IH (length s)); [simpl; lia|done..].
  - constructor; [unfold is_scalar, is_high, is_low in *; lia|].
    apply (IH (length s)); [simpl; lia|done..].
Qed.

Lemma units_code_points s :
  wf_string s → is_well_formed s = true → code_points s ≫= utf16_units = s.
Proof.
  remember (length s) as len eqn:Hlen. revert s Hlen.
  induction len as [len IH] using lt_wf_ind. intros [|c s] -> Hcu Hwf; [done|].
  unfold wf_string in *. apply Forall_cons_1 in Hcu as [Hc Hcu].
  unfold is_code_unit in Hc. simpl in *. destruct (decide (is_high c)) as [Hh|Hh].
  - destruct s as [|d s]; [done|].
    apply andb_prop in Hwf as [Hl%bool_decide_eq_true Hwf].
    apply Forall_cons_1 in Hcu as [_ Hcu]. rewrite decide_True by done.
    change ((?x :: ?l) ≫= utf16_units) with (utf16_units x ++ (l ≫= utf16_units)).
    rewrite utf16_units_of_pair, (IH (length s)) by (simpl; done || lia). done.
  - apply andb_prop in Hwf as [Hl%bool_decide_eq_true Hwf].
    rewrite decide_False by done.
    change ((?x :: ?l) ≫= utf16_units) with (utf16_units x ++ (l ≫= utf16_units)).
    rewrite utf16_units_bmp, (IH (length s)) by (simpl; done || lia). done.
Qed.

(** The code units of scalar values are a well-formed String. *)
Lemma is_well_formed_units cps :
  Forall is_scalar cps → is_well_formed (cps ≫= utf16_units) = true.
Proof.
  induction 1 as [|cp cps [Hr Hs] _ IH]; [done|].
  change ((cp :: cps) ≫= utf16_units) with (utf16_units cp ++ (cps ≫= utf16_units)).
  destruct (decide (cp < 0x10000)) as [Hlt|Hge].
  - rewrite utf16_units_bmp by done. simpl.
    rewrite decide_False, bool_decide_eq_true_2 by (unfold is_high, is_low; lia).
    done.
  - destruct (utf16_units_pair cp) as (lead & trail & -> & Hl & Ht & _); [lia|].
    simpl. by rewrite decide_True, bool_decide_eq_true_2 by done.
Qed.

(** ** ASCII *)

Lemma code_points_ascii s : Forall is_ascii s → code_points s = s.
Proof.
  induction 1 as [|c s Hc _ IH]; [done|]. simpl.
  rewrite !decide_False by (unfold is_ascii, is_high, is_low in *; lia).
  by rewrite IH.
Qed.

Lemma utf8_encode_ascii s : Forall is_ascii s → utf8_encode s = s.
Proof.
  induction 1 as [|c s Hc _ IH]; [done|].
  change (utf8_encode (c :: s)) with (utf8_encode_cp c ++ utf8_encode s).
  rewrite utf8_encode_cp_1, IH by (unfold is_ascii in *; lia). done.
Qed.

Lemma utf8_write_ascii s : Forall is_ascii s → utf8_write s = s.
Proof. intros H. unfold utf8_write. by rewrite code_points_ascii, utf8_encode_ascii. Qed.

(** A String and its well-formed version agree on ASCII: the surrogates
    replaced and the pairs combined are runs outside ASCII on both sides. *)
Lemma code_points_blocks s : blocks is_ascii s (code_points s).
Proof.
  remember (length s) as len eqn:Hlen. revert s Hlen.
  induction len as [len IH] using lt_wf_ind. intros [|c s] ->; [constructor|].
  assert (∀ s', (length s' < length (c :: s))%nat → blocks is_ascii s' (code_points s'))
    as IH' by (intros s' Hs'; by eapply IH).
  assert (¬ is_ascii REPLACEMENT) as Hrep by (unfold is_ascii, REPLACEMENT; lia).
  cbn [code_points].
  destruct (decide (is_high c)) as [Hh|Hh];
    [destruct s as [|d s]; [|destruct (decide (is_low d)) as [Hl|Hl]]
    |destruct (decide (is_low c)) as [Hl|Hl];
       [|destruct (decide (is_ascii c)) as [Ha|Ha]]];
    unfold is_high, is_low in *.
  - apply (blocks_chunk _ [c] [REPLACEMENT] [] []); [done..| | |constructor];
      repeat constructor; [unfold is_ascii; lia|done].
  - pose proof (pair_code_point_range c d Hh Hl).
    apply (blocks_chunk _ [c; d] [pair_code_point c d] s (code_points s));
      [done..| | |apply IH'; simpl; lia];
      repeat constructor; unfold is_ascii; lia.
  - apply (blocks_chunk _ [c] [REPLACEMENT] (d :: s) (code_points (d :: s)));
      [done..| | |apply IH'; simpl; lia];
      repeat constructor; [unfold is_ascii; lia|done].
  - apply (blocks_chunk _ [c] [REPLACEMENT] s (code_points s));
      [done..| | |apply IH'; simpl; lia];
      repeat constructor; [unfold is_ascii; lia|done].
  - apply blocks_keep; [done|apply IH'; simpl; lia].
  - apply (blocks_chunk _ [c] [c] s (code_points s));
      [done..| | |apply IH'; simpl; lia]; by repeat constructor.
Qed.

Lemma code_points_units_blocks s :
  blocks is_ascii s (code_points s ≫= utf16_units).
Proof.
  apply blocks_bind;
    [apply utf16_units_ascii|apply utf16_units_not_ascii|apply code_points_blocks].
Qed.

(** ** Strings through bytes *)

Lemma utf8_write_bytes s : wf_string s → Forall is_byte (utf8_write s).
Proof.
  intros Hs%code_points_scalar. unfold utf8_write.
  eapply Forall_bind_intro; [exact Hs|]. apply utf8_encode_cp_bytes.
Qed.

(** Reading back what was written gives the String with every lone
    surrogate replaced by U+FFFD. *)
Lemma utf8_decode_write s :
  wf_string s → utf8_decode (utf8_write s) = code_points s ≫= utf16_units.
Proof.
  intros Hs%code_points_scalar. unfold utf8_decode, utf8_write.
  by rewrite decode_encode.
Qed.

Close Scope Z_scope.

(** ** The theorems on text *)

(** C35: the text read from a file is a well-formed String.  Whatever the
    bytes, the decoded text is a sequence of 16-bit code units in which no
    surrogate stands alone, and its code points are the scalar values the
    decoder produced. *)
Theorem utf8_decode_well_formed bytes :
  wf_string (utf8_decode bytes) ∧
  is_well_formed (utf8_decode bytes) = true ∧
  code_points (utf8_decode bytes) = decode_from initial_state bytes.
Proof.
  pose proof (decode_from_scalar bytes _ initial_state_ok) as Hs.
  split_and!; [apply utf8_decode_wf|by apply is_well_formed_units
              |by apply code_points_units].
Qed.

(** C36: a String written as UTF-8 and read back.  The bytes written for a
    String are bytes, and reading them gives the String back exactly when
    it is well-formed; in general it gives the String with U+FFFD in the
    place of each lone surrogate. *)
Theorem utf8_string_roundtrip s :
  wf_string s →
  Forall is_byte (utf8_write s) ∧
  utf8_decode (utf8_write s) = code_points s ≫= utf16_units ∧
  (utf8_decode (utf8_write s) = s ↔ is_well_formed s = true).
Proof.
  intros Hs. split_and!; [by apply utf8_write_bytes|by apply utf8_decode_write|].
  rewrite utf8_decode_write by done. split.
  - intros <-. by apply is_well_formed_units, code_points_scalar.
  - by apply units_code_points.
Qed.

Lemma utf8_string_roundtrip_witness :
  Forall is_byte (utf8_write [0x41; 0xD83D; 0xDE00; 0xDC00; 0xE9]%Z) ∧
  utf8_decode (utf8_write [0x41; 0xD83D; 0xDE00; 0xDC00; 0xE9]%Z)
  = code_points [0x41; 0xD83D; 0xDE00; 0xDC00; 0xE9]%Z ≫= utf16_units ∧
  (utf8_decode (utf8_write [0x41; 0xD83D; 0xDE00; 0xDC00; 0xE9]%Z)
   = [0x41; 0xD83D; 0xDE00; 0xDC00; 0xE9]%Z
   ↔ is_well_formed [0x41; 0xD83D; 0xDE00; 0xDC00; 0xE9]%Z = true).
Proof. apply utf8_string_roundtrip. compute_done. Defined.
