(* ===== verification/StringSearch.v ===== *)
(** * String search: [String.prototype.includes]

    Line 17 of [src/validate.js] calls [content.includes(section)].  This
    file models that built-in the way the language specification defines
    it: [includes] clamps the optional position and asks the abstract
    operation [StringIndexOf], which tries every candidate index in
    ascending order and compares the window that starts there with the
    search value.

    The file also states what the validator needs from a search as the
    class [Includes], and shows that the model provides it. *)

From stdpp Require Import base tactics decidable option list numbers.
From S2P Require Import Prelude JsString.

(** ** The model *)

(** The candidate loop of [StringIndexOf]: [n] candidates remain, the next
    one is [i]. *)
Fixpoint StringIndexOf_from (s v : list Z) (i n : nat) : option nat :=
  match n with
  | 0 => None
  | S n' =>
      if decide (substring s i (i + length v) = v) then Some i
      else StringIndexOf_from s v (S i) n'
  end.

(** [StringIndexOf(string, searchValue, fromIndex)]; [None] is the
    specification's not-found.  The candidates are the [i] with
    [fromIndex ≤ i ≤ len - searchLen]. *)
Definition StringIndexOf (s v : list Z) (fromIndex : nat) : option nat :=
  let len := length s in
  if decide (v = [] ∧ fromIndex ≤ len) then Some fromIndex
  else
    let searchLen := length v in
    StringIndexOf_from s v fromIndex (S len - searchLen - fromIndex).

(** The start index [includes] computes from its position argument: the
    position clamped between 0 and the length. *)
Definition clamp_position (len : nat) (pos : Z) : nat :=
  Z.to_nat (Z.min (Z.max pos 0) (Z.of_nat len)).

(** [S.includes(searchString, position)] on String arguments. *)
Definition includes_from (s v : list Z) (pos : Z) : bool :=
  bool_decide (is_Some (StringIndexOf s v (clamp_position (length s) pos))).

(** [S.includes(searchString)]: the position is undefined, which converts
    to 0. *)
Definition includes (s v : list Z) : bool := includes_from s v 0.

(** ** What a client may assume of a search *)

Class Includes (inc : list Z → list Z → bool) : Prop :=
  includes_spec s v : inc s v = true ↔ v `infix_of` s.

(** ** The candidate loop *)

Section loop.
Context (s v : list Z).
Implicit Types (i j n : nat).

(** Inside the candidate range the window test is [occurs_at]. *)
Lemma window_occurs_at i :
  i + length v ≤ length s →
  substring s i (i + length v) = v ↔ occurs_at v s i.
Proof. intros Hi. rewrite <-substring_occurs_at. tauto. Qed.

Lemma StringIndexOf_from_Some i n j :
  StringIndexOf_from s v i n = Some j ↔
    i ≤ j < i + n ∧ substring s j (j + length v) = v ∧
    ∀ k, i ≤ k < j → substring s k (k + length v) ≠ v.
Proof.
  revert i. induction n as [|n IH]; intros i; simpl.
  { split; [done | intros (? & _); lia]. }
  case_decide as Hw.
  - split; [intros [= <-]; split_and!; try done; try lia; intros k ?; lia|].
    intros (Hj & _ & Hmin). f_equal. destruct (decide (i = j)); [done|].
    destruct (Hmin i); [lia|done].
  - rewrite IH. split; intros (Hj & Hv & Hmin).
    + split_and!; try done; try lia. intros k Hk.
      destruct (decide (k = i)) as [->|]; [done|apply Hmin; lia].
    + assert (i ≠ j) by congruence.
      split_and!; try done; try lia. intros k Hk. apply Hmin. lia.
Qed.

Lemma StringIndexOf_from_None i n :
  StringIndexOf_from s v i n = None ↔
    ∀ k, i ≤ k < i + n → substring s k (k + length v) ≠ v.
Proof.
  revert i. induction n as [|n IH]; intros i; simpl.
  { split; [intros _ k ?; lia | done]. }
  case_decide as Hw.
  - split; [done|]. intros Hk. destruct (Hk i); [lia|done].
  - rewrite IH. split; intros Hmin k Hk.
    + destruct (decide (k = i)) as [->|]; [done|apply Hmin; lia].
    + apply Hmin. lia.
Qed.

End loop.

(** ** [StringIndexOf] finds the first occurrence *)

Section index_of.
Context (s v : list Z).
Implicit Types (from i j k : nat).

(** Every candidate of the loop is a window inside [s]. *)
Lemma candidate_in_range from k :
  from ≤ k < from + (S (length s) - length v - from) → k + length v ≤ length s.
Proof. lia. Qed.

Lemma StringIndexOf_Some_iff from j :
  StringIndexOf s v from = Some j ↔
    from ≤ j ∧ occurs_at v s j ∧ ∀ k, from ≤ k < j → ¬ occurs_at v s k.
Proof.
  unfold StringIndexOf. case_decide as He.
  - destruct He as [-> Hle]. split.
    + intros [= <-]. split_and!; [done|by apply occurs_at_nil|intros k ?; lia].
    + intros (Hj & _ & Hmin). f_equal. destruct (decide (from = j)); [done|].
      destruct (Hmin from); [lia|by apply occurs_at_nil].
  - rewrite StringIndexOf_from_Some. split.
    + intros (Hj & Hw & Hmin).
      pose proof (candidate_in_range from j Hj).
      split_and!; [lia|by apply window_occurs_at|].
      intros k Hk. rewrite <-window_occurs_at; [apply Hmin; lia|].
      apply (candidate_in_range from); lia.
    + intros (Hj & Hw & Hmin). pose proof (occurs_at_bound _ _ _ Hw).
      assert (from ≤ j < from + (S (length s) - length v - from)) as Hr.
      { split; [done|]. destruct (decide (from + length v ≤ length s)); lia. }
      split_and!; try done; try lia; [by apply window_occurs_at|].
      intros k Hk. rewrite window_occurs_at; [apply Hmin; lia|lia].
Qed.

Lemma StringIndexOf_None_iff from :
  StringIndexOf s v from = None ↔ ∀ k, from ≤ k → ¬ occurs_at v s k.
Proof.
  unfold StringIndexOf. case_decide as He.
  - destruct He as [-> Hle]. split; [done|]. intros Hk.
    destruct (Hk from); [lia|by apply occurs_at_nil].
  - rewrite StringIndexOf_from_None. split.
    + intros Hn k Hk Ho. pose proof (occurs_at_bound _ _ _ Ho).
      apply (Hn k); [lia|by apply window_occurs_at].
    + intros Hn k Hk Hw. apply (Hn k); [lia|].
      apply window_occurs_at; [|done]. by apply (candidate_in_range from).
Qed.

Lemma StringIndexOf_is_Some from :
  is_Some (StringIndexOf s v from) ↔ ∃ j, from ≤ j ∧ occurs_at v s j.
Proof.
  split.
  - intros [j Hj]. apply StringIndexOf_Some_iff in Hj as (? & ? & _). eauto.
  - intros (j & Hj & Ho). apply not_eq_None_Some. rewrite StringIndexOf_None_iff.
    intros Hn. by apply (Hn j).
Qed.

End index_of.

(** ** [includes] decides occurrence *)

Lemma clamp_position_le len pos : clamp_position len pos ≤ len.
Proof. unfold clamp_position. lia. Qed.

Lemma clamp_position_0 len : clamp_position len 0 = 0.
Proof. unfold clamp_position. lia. Qed.

Lemma clamp_position_inside len (n : nat) :
  n ≤ len → clamp_position len (Z.of_nat n) = n.
Proof. unfold clamp_position. lia. Qed.

Lemma includes_from_infix_of s v pos :
  includes_from s v pos = true ↔
    v `infix_of` drop (clamp_position (length s) pos) s.
Proof.
  unfold includes_from.
  rewrite bool_decide_eq_true, StringIndexOf_is_Some, infix_of_drop; [done|].
  apply clamp_position_le.
Qed.

Lemma includes_infix_of s v : includes s v = true ↔ v `infix_of` s.
Proof.
  unfold includes. by rewrite includes_from_infix_of, clamp_position_0, drop_0.
Qed.

(** The model meets the interface. *)
#[export] Instance ecma_includes : Includes includes.
Proof. exact includes_infix_of. Qed.

(** ** Consequences of the interface *)

Section client.
Context (inc : list Z → list Z → bool) `{!Includes inc}.

Lemma includes_false s v : inc s v = false ↔ ¬ v `infix_of` s.
Proof. rewrite <-includes_spec. by destruct (inc s v). Qed.

Lemma includes_bool_decide s v : inc s v = bool_decide (v `infix_of` s).
Proof.
  destruct (inc s v) eqn:H; symmetry.
  - by apply bool_decide_eq_true, includes_spec.
  - by apply bool_decide_eq_false, includes_false.
Qed.

(** Text added around a string never removes an occurrence. *)
Lemma includes_extend s v pre post :
  inc s v = true → inc (pre ++ s ++ post) v = true.
Proof.
  rewrite !includes_spec. intros H.
  by apply infix_of_app_l, infix_of_app_r.
Qed.

Lemma includes_self s : inc s s = true.
Proof. by apply includes_spec. Qed.

Lemma includes_empty s : inc s [] = true.
Proof. apply includes_spec, infix_of_nil. Qed.

Lemma includes_longer s v : length s < length v → inc s v = false.
Proof.
  intros Hl. apply includes_false. intros H%infix_of_length. lia.
Qed.

End client.

(** ** The search's theorems *)

(** C4: [StringIndexOf] returns the least index at or after [fromIndex] at
    which the search value occurs in the string, and not-found exactly when
    it occurs at no such index. *)
Theorem StringIndexOf_first_occurrence s v from :
  match StringIndexOf s v from with
  | Some j =>
      from ≤ j ∧ occurs_at v s j ∧ ∀ k, from ≤ k < j → ¬ occurs_at v s k
  | None => ∀ k, from ≤ k → ¬ occurs_at v s k
  end.
Proof.
  destruct (StringIndexOf s v from) eqn:H.
  - by apply StringIndexOf_Some_iff.
  - by apply StringIndexOf_None_iff.
Qed.

(** C21: [includes] with a position answers whether the search value occurs
    at an index at or after the position; the empty search value is found
    whatever the position is, even one past the end of the string. *)
Theorem includes_from_position s v pos :
  includes_from s v pos = true ↔
    v = [] ∨ ∃ j : nat, (pos ≤ Z.of_nat j)%Z ∧ occurs_at v s j.
Proof.
  rewrite includes_from_infix_of, infix_of_drop by apply clamp_position_le.
  unfold clamp_position. split.
  - intros (j & Hj & Ho). destruct v as [|c v]; [by left|]. right.
    exists j. split; [|done]. apply occurs_at_bound in Ho. simpl in Ho. lia.
  - intros [->|(j & Hj & Ho)].
    + eexists. split; [done|]. apply occurs_at_nil. lia.
    + exists j. split; [|done]. apply occurs_at_bound in Ho. lia.
Qed.

(** C22: the index loop of [includes] computes the same answer as the
    structural reference search [infix_ofb], which tests at every tail of
    the string whether the search value is a prefix of it. *)
Theorem includes_reference s v : includes s v = infix_ofb v s.
Proof.
  rewrite (includes_bool_decide includes). destruct (infix_ofb v s) eqn:H.
  - by apply bool_decide_eq_true, infix_ofb_spec.
  - apply bool_decide_eq_false. rewrite <-infix_ofb_spec. congruence.
Qed.
