(* ===== verification/Validator.v ===== *)
(** * The structure validator

    The data and the loop of [src/validate.js]: the array [requiredSections]
    (lines 7-14) and the [for ... of] loop that throws at the first section
    name the content does not include (lines 16-20).

    The loop is stated over any search [inc] that meets the interface
    [Includes] of [StringSearch]; the script instantiates it with the model
    of [String.prototype.includes]. *)

From Stdlib Require Import String.
From stdpp Require Import base tactics decidable option list numbers strings.
From S2P Require Import Prelude Overlap JsString Completion StringSearch.

(** ** Data *)

(** The array literal of lines 7-14, in its order. *)
Definition requiredSections : list (list Z) :=
  [ lit "Title";
    lit "Background";
    lit "Observed Ambiguity";
    lit "Specific Clarification Questions";
    lit "Risk of Proceeding Without Clarification";
    lit "Suggested Documentation Improvements" ].

(** The template literal of line 18. *)
Definition missing_section_message (section : list Z) : list Z :=
  template "Missing section: " section.

(** ** The loop *)

Section validator.
Context (inc : list Z → list Z → bool).

(** The loop body, lines 17-19. *)
Definition check_section (content section : list Z) : completion unit :=
  if negb (inc content section)
  then Throw (new_Error (missing_section_message section))
  else Normal ().

(** The loop, lines 16-20, over the array bound to [requiredSections]. *)
Definition check_sections (sections : list (list Z)) (content : list Z)
  : completion unit :=
  for_of (check_section content) sections.

Lemma check_section_true content section :
  inc content section = true → check_section content section = Normal ().
Proof. intros H. unfold check_section. by rewrite H. Qed.

Lemma check_section_false content section :
  inc content section = false →
  check_section content section
  = Throw (new_Error (missing_section_message section)).
Proof. intros H. unfold check_section. by rewrite H. Qed.

End validator.

(** ** Specification vocabulary *)

(** A section name is missing from a content. *)
Definition missing (content section : list Z) : Prop := ¬ section `infix_of` content.

#[export] Instance missing_dec content section : Decision (missing content section).
Proof. unfold missing. apply _. Defined.

(** The first missing name of a list, with its index. *)
Definition first_missing (sections : list (list Z)) (content : list Z)
  : option (nat * list Z) :=
  list_find (missing content) sections.

(** ** The loop body *)

Section body.
Context (inc : list Z → list Z → bool) `{!Includes inc}.
Implicit Types (content section : list Z) (sections : list (list Z)).

Lemma check_section_present content section :
  section `infix_of` content → check_section inc content section = Normal ().
Proof.
  intros H. by apply check_section_true, includes_spec.
Qed.

Lemma check_section_missing content section :
  missing content section →
  check_section inc content section
  = Throw (new_Error (missing_section_message section)).
Proof.
  intros H. by apply check_section_false, (includes_false inc).
Qed.

Lemma check_section_Normal content section :
  check_section inc content section = Normal () ↔ section `infix_of` content.
Proof.
  split; [|apply check_section_present].
  destruct (decide (section `infix_of` content)) as [|Hm]; [done|].
  by rewrite (check_section_missing _ _ Hm).
Qed.

(** The loop is the search for the first missing name. *)
Lemma check_sections_first_missing sections content :
  check_sections inc sections content =
    match first_missing sections content with
    | None => Normal ()
    | Some (_, name) => Throw (new_Error (missing_section_message name))
    end.
Proof.
  unfold check_sections, first_missing.
  induction sections as [|x sections IH]; simpl; [done|].
  case_decide as Hx.
  - by rewrite (check_section_missing _ _ Hx).
  - rewrite check_section_present by (by apply dec_stable).
    simpl. rewrite IH. by destruct (list_find _ sections) as [[]|].
Qed.

End body.

(** ** The first missing name *)

Section first_missing.
Implicit Types (content section name : list Z) (sections : list (list Z)).

Lemma first_missing_None sections content :
  first_missing sections content = None ↔
    ∀ name, name ∈ sections → name `infix_of` content.
Proof.
  unfold first_missing. rewrite list_find_None, Forall_forall.
  apply forall_proper; intros name. unfold missing.
  split; intros H ?; [by apply dec_stable, H | by intros []; apply H].
Qed.

Lemma first_missing_Some sections content i name :
  first_missing sections content = Some (i, name) ↔
    sections !! i = Some name ∧ missing content name ∧
    ∀ j name', sections !! j = Some name' → j < i → name' `infix_of` content.
Proof.
  unfold first_missing. rewrite list_find_Some.
  do 2 (apply and_iff_compat_l). unfold missing.
  split; intros H j name' ? ?; [by eapply dec_stable, H | by intros []; eapply H].
Qed.

(** Two contents with the same occurrences of the names of an array have
    the same first missing name. *)
Lemma first_missing_ext sections content content' :
  (∀ name, name ∈ sections →
           name `infix_of` content ↔ name `infix_of` content') →
  first_missing sections content = first_missing sections content'.
Proof.
  unfold first_missing, missing. induction sections as [|x sections IH]; [done|].
  intros H. simpl. rewrite IH by (intros; apply H; by right).
  pose proof (H x (list_elem_of_here _ _)).
  by repeat case_decide; try tauto.
Qed.

(** Text added around a content never makes a present name missing, so the
    first missing name can only move later in the array. *)
Lemma first_missing_extend sections content pre post i name :
  first_missing sections (pre ++ content ++ post) = Some (i, name) →
  ∃ j name', first_missing sections content = Some (j, name') ∧ j ≤ i.
Proof.
  intros (Hi & Hm & _)%first_missing_Some.
  destruct (first_missing sections content) as [[j name']|] eqn:Hf.
  - exists j, name'. split; [done|].
    apply first_missing_Some in Hf as (Hj & _ & Hmin).
    destruct (decide (j ≤ i)) as [|Hlt]; [done|]. destruct Hm.
    by apply infix_of_app_l, infix_of_app_r, (Hmin i); [|lia].
  - destruct Hm. apply infix_of_app_l, infix_of_app_r.
    eapply first_missing_None; [done|]. by eapply list_elem_of_lookup_2.
Qed.

End first_missing.

(** The loop completes normally exactly when every name occurs. *)
Lemma check_sections_Normal inc `{!Includes inc} sections content :
  check_sections inc sections content = Normal () ↔
    ∀ name, name ∈ sections → name `infix_of` content.
Proof.
  rewrite (check_sections_first_missing inc), <-first_missing_None.
  by destruct (first_missing sections content) as [[]|].
Qed.

(** ** The validator's theorems *)

(** C3: the loop over any array completes normally exactly when every name
    of the array occurs in the content as a contiguous run of code units;
    order, overlap and position of the occurrences do not matter. *)
Theorem check_sections_pass_iff sections content :
  check_sections includes sections content = Normal () ↔
    ∀ name, name ∈ sections → name `infix_of` content.
Proof. apply (check_sections_Normal includes). Qed.

(** C2: the loop throws exactly the Error whose message is
    [Missing section: ] followed by the first name of the array, in array
    order, that does not occur in the content; names after it are never
    reported, however many of them are missing. *)
Theorem check_sections_reports_first_missing sections content e :
  check_sections includes sections content = Throw e ↔
    ∃ i name,
      sections !! i = Some name ∧ missing content name ∧
      (∀ j name', sections !! j = Some name' → j < i → name' `infix_of` content) ∧
      e = new_Error (missing_section_message name).
Proof.
  rewrite (check_sections_first_missing includes). split.
  - destruct (first_missing sections content) as [[i name]|] eqn:Hf; [|done].
    intros [= <-]. apply first_missing_Some in Hf as (? & ? & ?). eauto 6.
  - intros (i & name & Hi & Hm & Hmin & ->).
    by rewrite (proj2 (first_missing_Some sections content i name)).
Qed.

(** C26: presence is plain containment.  A content that holds the name
    anywhere, with any text before and after it, passes the check of that
    name; a content that is a proper prefix of the name fails it. *)
Theorem substring_sufficiency section pre post :
  check_section includes (pre ++ section ++ post) section = Normal () ∧
  ∀ p, p `prefix_of` section → p ≠ section →
       check_section includes p section
       = Throw (new_Error (missing_section_message section)).
Proof.
  split.
  - apply (check_section_present includes).
    by apply infix_of_app_l, infix_of_app_r.
  - intros p Hp Hne. apply (check_section_missing includes).
    intros Hi. apply Hne, (anti_symm infix_of); [by apply prefix_infix_of|done].
Qed.

(** C29: adding text before or after a content never turns a pass into a
    failure, and when the longer content still fails, the name it reports
    comes no earlier in the array than the name the shorter one reports. *)
Theorem check_sections_extend sections content pre post :
  (check_sections includes sections content = Normal () →
   check_sections includes sections (pre ++ content ++ post) = Normal ()) ∧
  ∀ i name, first_missing sections (pre ++ content ++ post) = Some (i, name) →
    ∃ j name', first_missing sections content = Some (j, name') ∧ j ≤ i ∧
      check_sections includes sections content
      = Throw (new_Error (missing_section_message name')).
Proof.
  split.
  - rewrite !(check_sections_first_missing includes).
    destruct (first_missing sections (pre ++ _)) as [[i name]|] eqn:Hf; [|done].
    apply first_missing_extend in Hf as (j & name' & -> & _). done.
  - intros i name (j & name' & Hf & Hj)%first_missing_extend.
    exists j, name'. by rewrite (check_sections_first_missing includes), Hf.
Qed.

(** ** The six names *)

(** The line feed, U+000A. *)
Definition newline : Z := 10.

Lemma requiredSections_NoDup : NoDup requiredSections.
Proof. compute_done. Qed.

(** No required name contains another one. *)
Lemma requiredSections_antichain a b :
  a ∈ requiredSections → b ∈ requiredSections → a `infix_of` b → a = b.
Proof.
  assert (Forall (λ a, Forall (λ b, a `infix_of` b → a = b) requiredSections)
            requiredSections) as H by compute_done.
  rewrite Forall_forall in H. intros Ha Hb.
  specialize (H a Ha). rewrite Forall_forall in H. by apply H.
Qed.

(** Every required name is a non-empty single line. *)
Lemma requiredSections_lines name :
  name ∈ requiredSections → (newline ∉ name) ∧ name ≠ [].
Proof.
  assert (Forall (λ name, (newline ∉ name) ∧ name ≠ []) requiredSections) as H
    by compute_done.
  rewrite Forall_forall in H. apply H.
Qed.

(** In a text whose lines are required names, a required name occurs
    exactly when it is one of the lines. *)
Lemma requiredSections_unlines present name :
  present ⊆ requiredSections → name ∈ requiredSections →
  name `infix_of` unlines newline present ↔ name ∈ present.
Proof.
  intros Hp Hn. split; [|apply infix_of_unlines_elem].
  destruct (requiredSections_lines name Hn) as [Hnl Hne].
  intros (l & Hl & Hi)%infix_of_unlines; [|done..].
  by rewrite (requiredSections_antichain name l Hn (Hp l Hl) Hi).
Qed.

(** C30: the six requirements are independent.  For any choice of required
    names, the text that holds exactly the chosen names, one per line,
    contains the chosen names and none of the others; so every set of
    missing names is the set of some document. *)
Theorem requiredSections_independent present :
  present ⊆ requiredSections →
  ∀ name, name ∈ requiredSections →
    (check_section includes (unlines newline present) name = Normal ()
     ↔ name ∈ present).
Proof.
  intros Hp name Hn.
  by rewrite (check_section_Normal includes), requiredSections_unlines.
Qed.

Lemma requiredSections_independent_witness :
  check_section includes (unlines newline (take 3 requiredSections))
    (lit "Background") = Normal ()
  ↔ lit "Background" ∈ take 3 requiredSections.
Proof.
  apply requiredSections_independent; [apply subseteq_take | compute_done].
Defined.

(** C33: every required name can be the one reported.  For the name at any
    index of the array, the text holding the names before it, one per line,
    makes the loop throw the error for exactly that name. *)
Theorem every_section_reportable i name :
  requiredSections !! i = Some name →
  check_sections includes requiredSections
    (unlines newline (take i requiredSections))
  = Throw (new_Error (missing_section_message name)).
Proof.
  intros Hi. rewrite (check_sections_first_missing includes).
  rewrite (proj2 (first_missing_Some _ _ i name)); [done|].
  pose proof (subseteq_take i requiredSections) as Hsub.
  split_and!; [done| |].
  - unfold missing. rewrite requiredSections_unlines;
      [|done|by eapply list_elem_of_lookup_2].
    intros (j & Hj)%list_elem_of_lookup_1.
    apply lookup_take_Some in Hj as [Hj Hlt].
    pose proof (NoDup_lookup _ _ _ _ requiredSections_NoDup Hi Hj). lia.
  - intros j name' Hj Hlt. apply requiredSections_unlines;
      [done|by eapply list_elem_of_lookup_2|].
    eapply list_elem_of_lookup_2, lookup_take_Some; eauto.
Qed.

Lemma every_section_reportable_witness :
  check_sections includes requiredSections
    (unlines newline (take 3 requiredSections))
  = Throw (new_Error
             (missing_section_message (lit "Specific Clarification Questions"))).
Proof. apply (every_section_reportable 3). reflexivity. Defined.

(** ** Letter case *)

(** The capital and the small ASCII letters, and a code unit with its
    letter case changed. *)
Definition is_upper (c : Z) : Prop := (0x41 ≤ c ≤ 0x5A)%Z.
Definition is_lower (c : Z) : Prop := (0x61 ≤ c ≤ 0x7A)%Z.

#[export] Instance is_upper_dec c : Decision (is_upper c).
Proof. unfold is_upper. apply _. Defined.
#[export] Instance is_lower_dec c : Decision (is_lower c).
Proof. unfold is_lower. apply _. Defined.

Definition to_lower (c : Z) : Z := if decide (is_upper c) then (c + 0x20)%Z else c.
Definition to_upper (c : Z) : Z := if decide (is_lower c) then (c - 0x20)%Z else c.

Lemma to_lower_not_upper c : ¬ is_upper (to_lower c).
Proof. unfold to_lower, is_upper. case_decide; lia. Qed.

Lemma to_upper_not_lower c : ¬ is_lower (to_upper c).
Proof. unfold to_upper, is_lower. case_decide; lia. Qed.

(** A text whose code units all avoid a class holds no word with a code
    unit of the class. *)
Lemma missing_class (P : Z → Prop) (f : Z → Z) content name :
  (∀ c, ¬ P (f c)) → Exists P name → missing (f <$> content) name.
Proof.
  intros Hf (x & Hx & HP)%Exists_exists Hin.
  apply (elem_of_infix_of _ _ x Hx), list_elem_of_fmap in Hin as (c & -> & _).
  by apply (Hf c).
Qed.

(** Every required name has a capital and a small letter. *)
Lemma requiredSections_letters name :
  name ∈ requiredSections → Exists is_upper name ∧ Exists is_lower name.
Proof.
  assert (Forall (λ name, Exists is_upper name ∧ Exists is_lower name)
            requiredSections) as H by compute_done.
  rewrite Forall_forall in H. apply H.
Qed.

(** C27: the check is case-sensitive.  Whatever the content, once its
    capital letters are made small, or its small letters capital, the check
    of every required name throws the error for that name; the loop on a
    content without capital letters reports [Title]. *)
Theorem check_sections_case_sensitive content :
  (∀ name, name ∈ requiredSections →
     check_section includes (to_lower <$> content) name
       = Throw (new_Error (missing_section_message name)) ∧
     check_section includes (to_upper <$> content) name
       = Throw (new_Error (missing_section_message name))) ∧
  check_sections includes requiredSections (to_lower <$> content)
    = Throw (new_Error (missing_section_message (lit "Title"))).
Proof.
  assert (∀ name, name ∈ requiredSections →
            missing (to_lower <$> content) name ∧
            missing (to_upper <$> content) name) as Hm.
  { intros name [Hu Hl]%requiredSections_letters.
    split; eapply missing_class; eauto using to_lower_not_upper, to_upper_not_lower. }
  split.
  - intros name [Hlo Hup]%Hm. by rewrite !(check_section_missing includes).
  - rewrite (check_sections_first_missing includes).
    rewrite (proj2 (first_missing_Some _ _ 0 (lit "Title"))); [done|].
    split_and!; [done|apply Hm; by left|lia].
Qed.

(** ** Spaces *)

(** The space of a name is a space and nothing else.  When the spaces of a
    content are replaced, by line feeds, tabs, no-break spaces or anything
    that is not U+0020, the loop reports one of the first three names:
    [Observed Ambiguity], which has a space, or a name before it. *)
Lemma first_missing_without_space (f : Z → Z) content :
  (∀ c, f c ≠ 0x20%Z) →
  ∃ i name, i ≤ 2 ∧ first_missing requiredSections (f <$> content) = Some (i, name).
Proof.
  intros Hf.
  assert (missing (f <$> content) (lit "Observed Ambiguity")) as Hm.
  { apply (missing_class (λ c, c = 0x20%Z)); [done|]. apply Exists_exists.
    exists 0x20%Z. split; [compute_done|done]. }
  destruct (first_missing requiredSections (f <$> content)) as [[i name]|] eqn:Hfm.
  - exists i, name. split; [|done]. apply first_missing_Some in Hfm as (_ & _ & Hmin).
    destruct (decide (i ≤ 2)); [done|]. destruct Hm. apply (Hmin 2); [done|lia].
  - destruct Hm. apply (proj1 (first_missing_None _ _) Hfm). compute_done.
Qed.

(** C28: no space is normalised.  A content in which no code unit is the
    space U+0020, whatever stands in the place of the spaces, fails the
    loop, with the error for [Title], [Background] or
    [Observed Ambiguity]. *)
Theorem check_sections_space_sensitive (f : Z → Z) content :
  (∀ c, f c ≠ 0x20%Z) →
  ∃ name, name ∈ take 3 requiredSections ∧
    check_sections includes requiredSections (f <$> content)
    = Throw (new_Error (missing_section_message name)).
Proof.
  intros (i & name & Hi & Hfm)%(first_missing_without_space f content).
  exists name. rewrite (check_sections_first_missing includes), Hfm.
  split; [|done]. apply first_missing_Some in Hfm as (Hname & _).
  apply list_elem_of_lookup. exists i. rewrite lookup_take_lt by lia. done.
Qed.

Lemma check_sections_space_sensitive_witness :
  ∃ name, name ∈ take 3 requiredSections ∧
    check_sections includes requiredSections
      ((λ c, if decide (c = 0x20%Z) then 0x0A%Z else c)
         <$> lit "Title Background Observed Ambiguity")
    = Throw (new_Error (missing_section_message name)).
Proof.
  apply (check_sections_space_sensitive
           (λ c, if decide (c = 0x20%Z) then 0x0A%Z else c)).
  intros c. case_decide; lia.
Defined.

(** ** The size of a passing document *)

(** No occurrence of a required name can start inside an occurrence of
    another one. *)
Lemma requiredSections_apart : apart requiredSections.
Proof. compute_done. Qed.

Lemma check_sections_length sections content :
  apart sections → Forall (λ n, n ≠ []) sections →
  check_sections includes sections content = Normal () →
  length (mjoin sections) ≤ length content.
Proof.
  intros Hap Hne Hpass. apply apart_total_length; [done..|].
  by apply Forall_forall, (check_sections_Normal includes).
Qed.

(** C31: a document that passes holds the six names side by side, so it has
    at least 141 code units, the lengths of the names added up; and the
    bound is met, by the six names with nothing between them. *)
Theorem passing_document_length :
  (∀ content, check_sections includes requiredSections content = Normal () →
     141 ≤ length content) ∧
  check_sections includes requiredSections (mjoin requiredSections) = Normal () ∧
  length (mjoin requiredSections) = 141.
Proof.
  split_and!; [|by vm_compute..]. intros content Hpass.
  change 141 with (length (mjoin requiredSections)).
  apply check_sections_length; [apply requiredSections_apart|compute_done|done].
Qed.

(** The documents that pass and are no longer than the names together are
    the names laid end to end, in any order. *)
Lemma check_sections_exact sections content :
  apart sections → Forall (λ n, n ≠ []) sections →
  length content ≤ length (mjoin sections) →
  check_sections includes sections content = Normal () ↔
    ∃ perm, perm ≡ₚ sections ∧ content = mjoin perm.
Proof.
  intros Hap Hne Hle. rewrite (check_sections_Normal includes). split.
  - intros Hall. apply holds_exact; [|done]. by rewrite <-Forall_forall in Hall.
  - intros (perm & Hperm & ->) name Hname.
    apply infix_of_mjoin_elem. by rewrite Hperm.
Qed.

(** C32: the shortest documents that pass.  A document of 141 code units
    passes exactly when it is the six names laid end to end in some order,
    with nothing between them; so 720 documents of that length pass. *)
Theorem shortest_passing_documents content :
  length content = 141 →
  check_sections includes requiredSections content = Normal () ↔
    ∃ perm, perm ≡ₚ requiredSections ∧ content = mjoin perm.
Proof.
  intros Hlen. apply check_sections_exact;
    [apply requiredSections_apart|compute_done|].
  rewrite Hlen. by vm_compute.
Qed.

Lemma shortest_passing_documents_witness :
  check_sections includes requiredSections (mjoin (reverse requiredSections))
  = Normal ()
  ↔ ∃ perm, perm ≡ₚ requiredSections ∧
            mjoin (reverse requiredSections) = mjoin perm.
Proof. apply shortest_passing_documents. reflexivity. Defined.
