(* ===== verification/Machine.v ===== *)
(** * The loop as a state machine

    The [for ... of] loop of lines 16-20 run one iteration at a time.  The
    array iterator keeps the index of the next element; an iteration reads
    the element at that index, tests it, and either advances the index or
    throws.  The states are the ones the specification names: [Checking i],
    and the two terminal states [Succeeded] and [Failed name].

    The file gives the machine as a relation ([step]) and as a function
    ([next], [run]), and relates it to the loop of [Validator]. *)

From Stdlib Require Import String.
From stdpp Require Import base tactics decidable option list numbers relations strings.
From S2P Require Import Prelude JsString Completion StringSearch Validator.

Inductive state : Type :=
| Checking (index : nat)
| Succeeded
| Failed (name : list Z).

#[export] Instance state_eq_dec : EqDecision state.
Proof. solve_decision. Defined.

Definition terminal (s : state) : Prop :=
  match s with Checking _ => False | _ => True end.

#[export] Instance terminal_dec s : Decision (terminal s).
Proof. destruct s; apply _. Defined.

(** The terminal state a completion of the loop stands for. *)
Definition state_of (c : completion unit) : state :=
  match c with
  | Normal _ => Succeeded
  | Throw e => Failed (drop 17 (message e))
  end.

Section machine.
Context (inc : list Z → list Z → bool).
Context (sections : list (list Z)) (content : list Z).

(** One iteration. *)
Inductive step : state → state → Prop :=
| step_advance i name :
    sections !! i = Some name → inc content name = true →
    step (Checking i) (Checking (S i))
| step_fail i name :
    sections !! i = Some name → inc content name = false →
    step (Checking i) (Failed name)
| step_succeed i :
    sections !! i = None →
    step (Checking i) Succeeded.

(** The same iteration as a function; [None] when there is no transition. *)
Definition next (s : state) : option state :=
  match s with
  | Checking i =>
      match sections !! i with
      | Some name =>
          if inc content name then Some (Checking (S i)) else Some (Failed name)
      | None => Some Succeeded
      end
  | _ => None
  end.

(** At most [n] iterations from [s]. *)
Fixpoint run (n : nat) (s : state) : state :=
  match n with
  | 0 => s
  | S n' => match next s with Some s' => run n' s' | None => s end
  end.

(** ** Relation and function agree *)

Lemma step_next s s' : step s s' ↔ next s = Some s'.
Proof.
  split.
  - intros [i name Hi Hn|i name Hi Hn|i Hi]; simpl; by rewrite Hi, ?Hn.
  - destruct s as [i| |]; simpl; [|done..].
    destruct (sections !! i) as [name|] eqn:Hi.
    + destruct (inc content name) eqn:Hn; intros [= <-];
        [by eapply step_advance | by eapply step_fail].
    + intros [= <-]. by apply step_succeed.
Qed.

Lemma step_functional s s1 s2 : step s s1 → step s s2 → s1 = s2.
Proof. rewrite !step_next. congruence. Qed.

Lemma run_rtc n s : rtc step s (run n s).
Proof.
  revert s. induction n as [|n IH]; intros s; simpl; [done|].
  destruct (next s) as [s'|] eqn:Hn; [|done].
  eapply rtc_l; [by apply step_next|apply IH].
Qed.

Lemma run_terminal n s : terminal s → run n s = s.
Proof. destruct n, s; simpl; done. Qed.

(** A terminal state reached from [s] is the only one. *)
Lemma rtc_terminal_unique s t1 t2 :
  rtc step s t1 → terminal t1 → rtc step s t2 → terminal t2 → t1 = t2.
Proof.
  intros H1. revert t2.
  induction H1 as [s|s s' t1 Hs _ IH]; intros t2 Ht1 H2 Ht2.
  - inversion H2 as [|? s' ? Hs _]; simplify_eq; [done|]. by destruct Hs.
  - inversion H2 as [|? s'' ? Hs' H2']; simplify_eq; [by destruct Hs|].
    rewrite <-(step_functional _ _ _ Hs Hs') in H2'. by apply IH.
Qed.

End machine.

(** ** The machine and the loop *)

Section simulation.
Context (inc : list Z → list Z → bool).
Context (sections : list (list Z)) (content : list Z).
Implicit Types (i j n : nat) (s t : state).

Abbreviation step := (step inc sections content).
Abbreviation next := (next inc sections content).
Abbreviation run := (run inc sections content).
Abbreviation loop_from i := (for_of (check_section inc content) (drop i sections)).

Lemma state_of_missing name :
  state_of (Throw (new_Error (missing_section_message name))) = Failed name.
Proof. reflexivity. Qed.

(** From [Checking i], one iteration per remaining element and one more to
    leave the loop reach the state the loop over the remaining elements
    stands for. *)
Lemma run_loop i n :
  length sections - i < n → run n (Checking i) = state_of (loop_from i).
Proof.
  revert i. induction n as [|n IH]; intros i Hn; [lia|]. simpl.
  destruct (sections !! i) as [name|] eqn:Hi.
  - pose proof (lookup_lt_Some _ _ _ Hi).
    rewrite (drop_S _ _ _ Hi). cbn [for_of].
    destruct (inc content name) eqn:Hinc.
    + rewrite (check_section_true _ _ _ Hinc), bind_Normal. apply IH. lia.
    + by rewrite (check_section_false _ _ _ Hinc), bind_Throw, run_terminal.
  - rewrite drop_ge by (by apply lookup_ge_None). by rewrite run_terminal.
Qed.

Lemma state_of_terminal c : terminal (state_of c).
Proof. by destruct c. Qed.

Lemma rtc_loop i : rtc step (Checking i) (state_of (loop_from i)).
Proof.
  rewrite <-(run_loop i (S (length sections - i))) by lia. apply run_rtc.
Qed.

End simulation.

(** ** What holds in every reachable state *)

Section invariant.
Context (inc : list Z → list Z → bool) `{!Includes inc}.
Context (sections : list (list Z)) (content : list Z).
Implicit Types (i j n : nat) (s t : state).

Abbreviation step := (step inc sections content).

(** In [Checking i] every name before index [i] was found; [Succeeded]
    means every name was found; [Failed name] means [name] is the first
    missing one. *)
Definition machine_inv (s : state) : Prop :=
  match s with
  | Checking i =>
      i ≤ length sections ∧
      ∀ j name, sections !! j = Some name → j < i → name `infix_of` content
  | Succeeded => ∀ name, name ∈ sections → name `infix_of` content
  | Failed name => ∃ i, first_missing sections content = Some (i, name)
  end.

Lemma machine_inv_init : machine_inv (Checking 0).
Proof. split; [lia|]. intros j name _ ?. lia. Qed.

Lemma machine_inv_step s s' : machine_inv s → step s s' → machine_inv s'.
Proof.
  intros Hinv Hs. destruct Hs as [i name Hi Hn|i name Hi Hn|i Hi];
    destruct Hinv as [Hle Hbefore]; simpl.
  - split; [by apply lookup_lt_Some in Hi|]. intros j name' Hj Hlt.
    destruct (decide (j = i)) as [->|]; [|apply (Hbefore j); [done|lia]].
    simplify_eq. by apply includes_spec.
  - exists i. apply first_missing_Some. split_and!; [done| |done].
    by apply (includes_false inc).
  - intros name [j Hj]%list_elem_of_lookup_1. apply (Hbefore j); [done|].
    apply lookup_ge_None in Hi. apply lookup_lt_Some in Hj. lia.
Qed.

Lemma machine_inv_rtc s s' : machine_inv s → rtc step s s' → machine_inv s'.
Proof. induction 2; eauto using machine_inv_step. Qed.

End invariant.

(** ** The machine's theorems *)

Section theorems.
Context (sections : list (list Z)) (content : list Z).
Implicit Types (i j n k : nat) (s t : state).

Abbreviation step := (step includes sections content).
Abbreviation run := (run includes sections content).

(** C23: the machine refines the loop.  The terminal states reachable from
    [Checking 0] are exactly one: [Succeeded] when the loop completes
    normally, [Failed name] when the loop throws the error for [name]. *)
Theorem machine_refines_loop t :
  rtc step (Checking 0) t ∧ terminal t ↔
    t = state_of (check_sections includes sections content).
Proof.
  pose proof (rtc_loop includes sections content 0) as Hloop.
  rewrite drop_0 in Hloop. fold (check_sections includes sections content) in Hloop.
  split.
  - intros [Hr Ht]. eapply rtc_terminal_unique; eauto using state_of_terminal.
  - intros ->. eauto using state_of_terminal.
Qed.

(** C24: the machine terminates.  One iteration per array element and one
    more to leave the loop are enough: after [length sections + 1]
    iterations, and after any larger number, the machine is in the
    terminal state of the loop's completion. *)
Theorem machine_terminates k :
  let final := run (S (length sections) + k) (Checking 0) in
  terminal final ∧ final = state_of (check_sections includes sections content).
Proof.
  cbv zeta. rewrite (run_loop includes sections content 0) by lia.
  rewrite drop_0. split; [apply state_of_terminal | done].
Qed.

(** C25: in every state reachable from [Checking 0] the index is within
    the array and every name before it occurs in the content; [Succeeded]
    is reached only if every name occurs, and [Failed name] only if [name]
    is the first name that does not. *)
Theorem machine_invariant s :
  rtc step (Checking 0) s → machine_inv sections content s.
Proof. apply (machine_inv_rtc includes), machine_inv_init. Qed.

End theorems.

Lemma machine_invariant_witness :
  machine_inv requiredSections (lit "Title Background")
    (run includes requiredSections (lit "Title Background") 2 (Checking 0)).
Proof.
  exact (machine_invariant _ _ _ (run_rtc includes requiredSections _ 2 _)).
Defined.
