(* ===== verification/Node.v ===== *)
(** * The host: file system and standard output

    What the script sees of Node.js: a file system it reads once with
    [fs.readFileSync] (line 5) and a standard output it writes once with
    [console.log] (line 22).  A program is a function from a world to a
    world and a completion; [readFileSync] throws a system error when the
    path cannot be read: ENOENT, EACCES, EISDIR, or the error an
    [Unavailable] node stands for.  Nothing here changes the file system.

    Paths are looked up as written (the script's path is relative and the
    world is indexed from the working directory).  Standard output is the
    list of lines written, one per [console.log] call; [stdout_bytes] is
    the byte stream they make.

    A readable file of any size is decoded: the limits Node.js puts on the
    size of a file read at once and on the length of a String are not in
    the model. *)

From Stdlib Require Import String.
From stdpp Require Import base tactics decidable option list numbers strings gmap.
From S2P Require Import Prelude JsString Completion Utf8 Utf8Encode Utf16.

(** ** The world *)

(** What the path of a read leads to: a regular file, which the process
    may or may not read; a directory; or something for which the host
    reports another system error at the system call [syscall], such as a
    loop of symbolic links (ELOOP at open), too many open files (EMFILE at
    open) or an input/output error (EIO at read). *)
Inductive fs_node : Type :=
| File (readable : bool) (data : list Z)
| Directory
| Unavailable (code desc syscall : string).

#[export] Instance fs_node_eq_dec : EqDecision fs_node.
Proof. solve_decision. Defined.

Record world : Type := mkWorld {
  fs : gmap string fs_node;
  stdout : list (list Z)
}.

(** ** Programs *)

Definition prog (A : Type) : Type := world → world * completion A.

#[export] Instance prog_ret : MRet prog := λ A a w, (w, Normal a).

(** Sequencing threads the world; a throw skips what follows. *)
#[export] Instance prog_bind : MBind prog := λ A B f m w,
  match m w with
  | (w', Normal a) => f a w'
  | (w', Throw e) => (w', Throw e)
  end.

(** A computation that does not touch the world. *)
Definition lift {A} (c : completion A) : prog A := λ w, (w, c).

(** ** System errors *)

(** The Error object of a failed system call: the message is
    [code: description, syscall 'path'] and the [code] property is set.  The
    path is left out for calls made on an open descriptor. *)
Definition uv_exception (code desc syscall : string) (path : option string)
  : js_error :=
  {| message :=
       lit (code +:+ ": " +:+ desc +:+ ", " +:+ syscall
            +:+ match path with Some p => " '" +:+ p +:+ "'" | None => "" end);
     Completion.code := Some code |}.

(** ** The two built-ins *)

(** What reading [path] as UTF-8 gives for the node found there: the
    decoded text of a readable regular file, a system error otherwise. *)
Definition read_file (path : string) (node : option fs_node)
  : completion (list Z) :=
  match node with
  | None =>
      Throw (uv_exception "ENOENT" "no such file or directory" "open" (Some path))
  | Some Directory =>
      Throw (uv_exception "EISDIR" "illegal operation on a directory" "read" None)
  | Some (File false _) =>
      Throw (uv_exception "EACCES" "permission denied" "open" (Some path))
  | Some (File true data) => Normal (utf8_decode data)
  | Some (Unavailable code desc syscall) =>
      Throw (uv_exception code desc syscall
               (if decide (syscall = "open") then Some path else None))
  end.

(** [fs.readFileSync(path, "utf8")]: the world is left as it is. *)
Definition readFileSync (path : string) : prog (list Z) := λ w,
  (w, read_file path (fs w !! path)).

(** [console.log(s)] with one String argument: one line on standard
    output. *)
Definition console_log (s : list Z) : prog unit := λ w,
  ({| fs := fs w; stdout := stdout w ++ [s] |}, Normal ()).

(** The bytes one [console.log] call writes: the line as UTF-8, then a
    line feed. *)
Definition write_line (s : list Z) : list Z := utf8_write s ++ [0x0A]%Z.

(** Standard output as the bytes written. *)
Definition stdout_bytes (w : world) : list Z := stdout w ≫= write_line.

(** ** Facts *)

Section prog.
Context {A B : Type}.
Implicit Types (w : world) (m : prog A) (f : A → prog B).

Lemma prog_bind_Normal m f w w' a :
  m w = (w', Normal a) → (m ≫= f) w = f a w'.
Proof. intros H. unfold mbind, prog_bind. by rewrite H. Qed.

Lemma prog_bind_Throw m f w w' e :
  m w = (w', Throw e) → (m ≫= f) w = (w', Throw e).
Proof. intros H. unfold mbind, prog_bind. by rewrite H. Qed.

Lemma lift_run (c : completion A) w : lift c w = (w, c).
Proof. done. Qed.

End prog.

Lemma read_file_Normal path node content :
  read_file path node = Normal content ↔
    ∃ data, node = Some (File true data) ∧ content = utf8_decode data.
Proof.
  destruct node as [[[] data| |c d s]|]; simpl;
    [split; [intros [= <-]; eauto|]; by intros (? & [= <-] & ->)|..];
    (split; [done|]; by intros (? & ? & _)).
Qed.

(** Every error of a read is a system error: its [code] is set. *)
Lemma read_file_Throw path node e :
  read_file path node = Throw e → is_Some (code e).
Proof. destruct node as [[[] data| |c d s]|]; intros [= <-]; by eexists. Qed.

Lemma readFileSync_world path w : (readFileSync path w).1 = w.
Proof. done. Qed.

(** Reading depends on the one path only. *)
Lemma readFileSync_frame path w w' :
  fs w !! path = fs w' !! path →
  (readFileSync path w).2 = (readFileSync path w').2.
Proof. unfold readFileSync. simpl. by intros ->. Qed.

Lemma console_log_fs s w : fs (console_log s w).1 = fs w.
Proof. done. Qed.

Lemma console_log_stdout s w : stdout (console_log s w).1 = stdout w ++ [s].
Proof. done. Qed.

(** ** Bytes written *)

Lemma stdout_bytes_app w lines :
  stdout_bytes {| fs := fs w; stdout := stdout w ++ lines |}
  = stdout_bytes w ++ (lines ≫= write_line).
Proof. unfold stdout_bytes. simpl. by rewrite bind_app. Qed.

Lemma console_log_bytes s w :
  stdout_bytes (console_log s w).1 = stdout_bytes w ++ write_line s.
Proof.
  unfold console_log. simpl. rewrite stdout_bytes_app. simpl.
  by rewrite app_nil_r.
Qed.

Lemma write_line_ascii s : Forall is_ascii s → write_line s = s ++ [0x0A]%Z.
Proof. intros H. unfold write_line. by rewrite utf8_write_ascii. Qed.

