(* ===== verification/Script.v ===== *)
(** * The script

    [src/validate.js], lines 5-22, as a program on a world: read the
    document, run the validator's loop on its text, print the success line.
    The file then states the contract of the validator as the specification
    gives it ([validates]: success, a missing section, or a file that cannot
    be read) and relates the script to it. *)

From Stdlib Require Import String.
From stdpp Require Import base tactics decidable option list numbers strings gmap.
From S2P Require Import Prelude JsString Completion Utf8 Utf8Encode Utf16.
From S2P Require Import StringSearch Validator Node.

(** ** The program *)

(** The path literal of line 5. *)
Definition document_path : string := "CLARIFICATION_REQUEST.md".

(** The String literal of line 22. *)
Definition success_message : list Z := lit "Structure validation passed".

(** The script, over the search and the array it uses. *)
Definition script_with (inc : list Z → list Z → bool) (sections : list (list Z))
  : prog unit :=
  content ← readFileSync document_path;
  lift (check_sections inc sections content);;
  console_log success_message.

(** The script as written. *)
Definition script : prog unit := script_with includes requiredSections.

(** ** Running it as a process *)

(** How a run ends: an uncaught error ends the process with status 1, a
    normal completion with status 0. *)
Definition exit_status (c : completion unit) : Z :=
  if is_normal c then 0 else 1.

Record process_result : Type := mkResult {
  final_world : world;
  status : Z;
  uncaught : option js_error
}.

Definition run_process (w : world) : process_result :=
  let '(w', c) := script w in
  {| final_world := w'; status := exit_status c; uncaught := thrown c |}.

(** ** The contract *)

Inductive Outcome : Type :=
| Success
| MissingSectionError (name : list Z)
| FileAccessError.

#[export] Instance Outcome_eq_dec : EqDecision Outcome.
Proof. solve_decision. Defined.

(** The document of a world, when it can be read. *)
Definition document (w : world) : option (list Z) :=
  match fs w !! document_path with
  | Some (File true data) => Some (utf8_decode data)
  | _ => None
  end.

(** What a run on a world must report. *)
Inductive validates (w : world) : Outcome → Prop :=
| validates_success text :
    document w = Some text →
    (∀ name, name ∈ requiredSections → name `infix_of` text) →
    validates w Success
| validates_missing text i name :
    document w = Some text →
    requiredSections !! i = Some name →
    missing text name →
    (∀ j name', requiredSections !! j = Some name' → j < i → name' `infix_of` text) →
    validates w (MissingSectionError name)
| validates_no_access :
    document w = None →
    validates w FileAccessError.

(** The outcome a completion of the script stands for: a system error has a
    [code], the validator's error has the section name after the fixed head
    of its message. *)
Definition outcome_of (c : completion unit) : Outcome :=
  match c with
  | Normal _ => Success
  | Throw e =>
      match code e with
      | Some _ => FileAccessError
      | None => MissingSectionError (drop (String.length "Missing section: ") (message e))
      end
  end.

(** The contract as a function. *)
Definition validate (w : world) : Outcome :=
  match document w with
  | None => FileAccessError
  | Some text =>
      match first_missing requiredSections text with
      | None => Success
      | Some (_, name) => MissingSectionError name
      end
  end.

(** ** Reading the document *)

Lemma read_file_document w text :
  document w = Some text ↔
    read_file document_path (fs w !! document_path) = Normal text.
Proof.
  unfold document.
  destruct (fs w !! document_path) as [[[] data| |c d s]|]; simpl;
    split; intros ?; by simplify_eq.
Qed.

Lemma read_file_no_document w :
  document w = None ↔
    ∃ e, read_file document_path (fs w !! document_path) = Throw e.
Proof.
  unfold document.
  destruct (fs w !! document_path) as [[[] data| |c d s]|]; simpl;
    split; try done; try (intros [? ?]; done); eauto.
Qed.

(** ** The script, step by step *)

Section run.
Context (inc : list Z → list Z → bool) (sections : list (list Z)).
Implicit Types (w : world) (text : list Z).

(** One equation for a whole run: what is read, then what the loop does,
    then the line printed. *)
Lemma script_with_run w :
  script_with inc sections w =
    match read_file document_path (fs w !! document_path) with
    | Throw e => (w, Throw e)
    | Normal text =>
        match check_sections inc sections text with
        | Throw e => (w, Throw e)
        | Normal _ => console_log success_message w
        end
    end.
Proof.
  unfold script_with, mbind, prog_bind, readFileSync, lift.
  destruct (read_file _ _) as [text|e]; [|done].
  by destruct (check_sections inc sections text).
Qed.

Lemma script_with_fs w : fs (script_with inc sections w).1 = fs w.
Proof.
  rewrite script_with_run. destruct (read_file _ _) as [text|e]; [|done].
  by destruct (check_sections inc sections text).
Qed.

Lemma script_with_stdout w :
  stdout (script_with inc sections w).1 =
    stdout w ++
    (if is_normal (script_with inc sections w).2 then [success_message] else []).
Proof.
  rewrite script_with_run. destruct (read_file _ _) as [text|e]; simpl.
  - destruct (check_sections inc sections text); simpl; [done|].
    by rewrite app_nil_r.
  - by rewrite app_nil_r.
Qed.

(** The completion of a run depends on the document's node only. *)
Lemma script_with_frame w w' :
  fs w !! document_path = fs w' !! document_path →
  (script_with inc sections w).2 = (script_with inc sections w').2.
Proof.
  intros H. rewrite !script_with_run, H.
  destruct (read_file _ _) as [text|e]; [|done].
  by destruct (check_sections inc sections text).
Qed.

End run.

(** ** The contract *)

Lemma validates_validate w o : validates w o ↔ validate w = o.
Proof.
  unfold validate. split.
  - intros [text Hd Hall|text i name Hd Hi Hm Hmin|Hd]; rewrite Hd; [| |done].
    + by rewrite (proj2 (first_missing_None _ _) Hall).
    + by rewrite (proj2 (first_missing_Some _ _ i name)).
  - intros <-. destruct (document w) as [text|] eqn:Hd; [|by constructor].
    destruct (first_missing requiredSections text) as [[i name]|] eqn:Hf.
    + apply first_missing_Some in Hf as (? & ? & ?). by econstructor.
    + econstructor; [done|]. by apply first_missing_None.
Qed.

Lemma outcome_of_missing name :
  outcome_of (Throw (new_Error (missing_section_message name)))
  = MissingSectionError name.
Proof.
  reflexivity.
Qed.

Lemma script_outcome w : outcome_of (script w).2 = validate w.
Proof.
  unfold script, validate. rewrite script_with_run.
  destruct (document w) as [text|] eqn:Hd.
  - rewrite (proj1 (read_file_document _ _) Hd).
    rewrite (check_sections_first_missing includes).
    by destruct (first_missing requiredSections text) as [[i name]|].
  - apply read_file_no_document in Hd as [e He]. rewrite He.
    apply read_file_Throw in He as [c Hc]. simpl. by rewrite Hc.
Qed.

(** ** The script's theorems *)

(** C1: the script meets the validator's contract, and the contract leaves
    it no choice: it reports a file access error exactly when the document
    cannot be read, the first missing section name exactly when one is
    missing, and success exactly when all six occur in the decoded text. *)
Theorem script_meets_contract w o :
  validates w o ↔ outcome_of (script w).2 = o.
Proof. by rewrite validates_validate, script_outcome. Qed.

(** ** Running the process *)

Lemma run_process_status w : status (run_process w) = exit_status (script w).2.
Proof. unfold run_process. by destruct (script w). Qed.

Lemma run_process_uncaught w : uncaught (run_process w) = thrown (script w).2.
Proof. unfold run_process. by destruct (script w). Qed.

Lemma run_process_final_world w : final_world (run_process w) = (script w).1.
Proof. unfold run_process. by destruct (script w). Qed.

Lemma exit_status_0 c : exit_status c = 0%Z ↔ outcome_of c = Success.
Proof.
  destruct c as [[]|e]; simpl; [done|]. unfold exit_status. simpl.
  by destruct (code e).
Qed.

Lemma exit_status_1 c : exit_status c = 1%Z ↔ outcome_of c ≠ Success.
Proof.
  destruct c as [[]|e]; simpl; [by split|]. unfold exit_status. simpl.
  by destruct (code e).
Qed.

Lemma document_Some w text :
  document w = Some text ↔
    ∃ data, fs w !! document_path = Some (File true data) ∧ text = utf8_decode data.
Proof. by rewrite read_file_document, read_file_Normal. Qed.

Lemma validate_Success w :
  validate w = Success ↔
    ∃ data, fs w !! document_path = Some (File true data) ∧
            ∀ name, name ∈ requiredSections → name `infix_of` utf8_decode data.
Proof.
  unfold validate. split.
  - destruct (document w) as [text|] eqn:Hd; [|done].
    apply document_Some in Hd as (data & Hd & ->). exists data. split; [done|].
    apply first_missing_None.
    by destruct (first_missing requiredSections (utf8_decode data)) as [[]|].
  - intros (data & Hd & Hall).
    rewrite (proj2 (document_Some w (utf8_decode data))) by eauto.
    by rewrite (proj2 (first_missing_None _ _) Hall).
Qed.

(** C5: the process ends with status 0 exactly when the document is a
    readable regular file whose decoded text contains all six required
    names, and with status 1 in every other case. *)
Theorem script_status_zero_iff w :
  let passes := ∃ data, fs w !! document_path = Some (File true data) ∧
                  ∀ name, name ∈ requiredSections → name `infix_of` utf8_decode data in
  (status (run_process w) = 0%Z ↔ passes) ∧
  (status (run_process w) = 1%Z ↔ ¬ passes).
Proof.
  intros passes. rewrite run_process_status, exit_status_0, exit_status_1.
  by rewrite script_outcome, validate_Success.
Qed.

(** C6: when the document path does not exist, the run throws the ENOENT
    system error of the read and nothing else happens: the world is
    unchanged, nothing is printed, and the result is the same whatever the
    search and the array of names are, so the loop is never entered. *)
Theorem script_no_document inc sections w :
  fs w !! document_path = None →
  script_with inc sections w =
    (w, Throw {| message :=
                   lit "ENOENT: no such file or directory, open 'CLARIFICATION_REQUEST.md'";
                 code := Some "ENOENT"%string |}).
Proof. intros H. by rewrite script_with_run, H. Qed.

Lemma script_no_document_witness :
  script_with includes requiredSections (mkWorld ∅ []) =
    (mkWorld ∅ [],
     Throw {| message :=
                lit "ENOENT: no such file or directory, open 'CLARIFICATION_REQUEST.md'";
              code := Some "ENOENT"%string |}).
Proof. apply script_no_document. reflexivity. Defined.

(** C7: every failure of the read ends the run at once and names its
    cause.  When the document is not a readable regular file, the run
    throws a system error and does nothing else: the world is unchanged and
    the loop is never entered, whatever the search and the names are.  The
    error carries the code of the cause, [ENOENT] for a missing path,
    [EISDIR] for a directory, [EACCES] for a file without read permission,
    and its message is [code: description, syscall], followed by the path
    in quotes exactly when the call that failed is [open]. *)
Theorem script_read_failure inc sections w :
  document w = None →
  ∃ code desc syscall,
    script_with inc sections w =
      (w, Throw (uv_exception code desc syscall
                   (if decide (syscall = "open") then Some document_path else None))) ∧
    (fs w !! document_path = None → code = "ENOENT" ∧ syscall = "open") ∧
    (fs w !! document_path = Some Directory → code = "EISDIR" ∧ syscall = "read") ∧
    (∀ data, fs w !! document_path = Some (File false data) →
       code = "EACCES" ∧ syscall = "open").
Proof.
  unfold document. intros Hd. rewrite script_with_run.
  destruct (fs w !! document_path) as [[[] data| |c d s]|]; simpl;
    [done
    |exists "EACCES", "permission denied", "open"
    |exists "EISDIR", "illegal operation on a directory", "read"
    |exists c, d, s
    |exists "ENOENT", "no such file or directory", "open"]; by split_and!.
Qed.

Lemma script_read_failure_witness :
  ∃ code desc syscall,
    script_with includes requiredSections
      (mkWorld {[ document_path := Directory ]} []) =
      (mkWorld {[ document_path := Directory ]} [],
       Throw (uv_exception code desc syscall
                (if decide (syscall = "open") then Some document_path else None))) ∧
    (fs (mkWorld {[ document_path := Directory ]} []) !! document_path = None →
       code = "ENOENT" ∧ syscall = "open") ∧
    (fs (mkWorld {[ document_path := Directory ]} []) !! document_path
       = Some Directory → code = "EISDIR" ∧ syscall = "read") ∧
    (∀ data, fs (mkWorld {[ document_path := Directory ]} []) !! document_path
       = Some (File false data) → code = "EACCES" ∧ syscall = "open").
Proof. apply script_read_failure. reflexivity. Defined.

(** C15: a second run on the world the first run leaves behind ends the same
    way: same exit status, same uncaught error, and the file system is still
    the one the first run started from. *)
Theorem script_rerun w :
  let r1 := run_process w in
  let r2 := run_process (final_world r1) in
  status r2 = status r1 ∧ uncaught r2 = uncaught r1 ∧
  fs (final_world r2) = fs w.
Proof.
  cbv zeta. rewrite !run_process_status, !run_process_uncaught,
    !run_process_final_world. unfold script.
  rewrite (script_with_frame _ _ (script_with includes requiredSections w).1 w)
    by (by rewrite script_with_fs).
  split_and!; [done..|]. by rewrite !script_with_fs.
Qed.

(** C16: a run never changes the file system, and it writes to standard
    output exactly one line, [Structure validation passed], when it
    completes normally and nothing when it throws. *)
Theorem script_effects w :
  fs (script w).1 = fs w ∧
  stdout (script w).1 =
    stdout w ++ (if is_normal (script w).2 then [success_message] else []).
Proof. split; [apply script_with_fs | apply script_with_stdout]. Qed.

(** ** The verdict and the file's bytes *)

Lemma requiredSections_ascii name :
  name ∈ requiredSections → Forall is_ascii name ∧ name ≠ [].
Proof.
  assert (Forall (λ name, Forall is_ascii name ∧ name ≠ []) requiredSections)
    as H by compute_done.
  rewrite Forall_forall in H. apply H.
Qed.

(** Two texts that agree on ASCII have the same first missing name, and
    the loop completes on both in the same way. *)
Lemma first_missing_blocks text text' :
  blocks is_ascii text text' →
  first_missing requiredSections text = first_missing requiredSections text'.
Proof.
  intros Hb. apply first_missing_ext. intros name [Ha Hne]%requiredSections_ascii.
  by apply (blocks_infix_of is_ascii).
Qed.

Lemma check_sections_blocks text text' :
  blocks is_ascii text text' →
  check_sections includes requiredSections text
  = check_sections includes requiredSections text'.
Proof.
  intros Hb.
  by rewrite !(check_sections_first_missing includes), (first_missing_blocks _ _ Hb).
Qed.

Lemma first_missing_decode data :
  first_missing requiredSections (utf8_decode data)
  = first_missing requiredSections data.
Proof. symmetry. apply first_missing_blocks, utf8_decode_blocks. Qed.

(** C8: the verdict is decided by the file's bytes.  For a readable
    document the run reports the first required name that does not occur
    among the raw bytes, and success when all occur there; decoding changes
    nothing, and no byte sequence, well-formed UTF-8 or not, makes the read
    fail. *)
Theorem script_decided_by_bytes w data :
  fs w !! document_path = Some (File true data) →
  outcome_of (script w).2 =
    match first_missing requiredSections data with
    | None => Success
    | Some (_, name) => MissingSectionError name
    end.
Proof.
  intros Hd. rewrite script_outcome. unfold validate.
  rewrite (proj2 (document_Some w (utf8_decode data))) by eauto.
  by rewrite first_missing_decode.
Qed.

Lemma script_decided_by_bytes_witness :
  outcome_of
    (script (mkWorld {[ document_path :=
                          File true ([0xFF; 0xC3]%Z ++ lit "Title Background") ]}
               [])).2
  = match first_missing requiredSections
            ([0xFF; 0xC3]%Z ++ lit "Title Background") with
    | None => Success
    | Some (_, name) => MissingSectionError name
    end.
Proof. apply script_decided_by_bytes. reflexivity. Defined.

(** Code units outside ASCII before a text hide no required name. *)
Lemma first_missing_skip k text :
  Forall (λ c, ¬ is_ascii c) k →
  first_missing requiredSections (k ++ text) = first_missing requiredSections text.
Proof.
  intros Hk. apply first_missing_ext. intros name [Ha Hne]%requiredSections_ascii.
  apply infix_of_app_skip; [done|]. intros x Hx Hn.
  rewrite Forall_forall in Hk, Ha. by destruct (Hk x Hx); apply Ha.
Qed.

Lemma check_sections_skip k text :
  Forall (λ c, ¬ is_ascii c) k →
  check_sections includes requiredSections (k ++ text)
  = check_sections includes requiredSections text.
Proof.
  intros Hk. by rewrite !(check_sections_first_missing includes), first_missing_skip.
Qed.

(** C18: a byte order mark changes nothing.  The three bytes EF BB BF at
    the head of the document are not removed by the read: the text starts
    with U+FEFF.  The run on such a document completes as the run on the
    document without them. *)
Theorem script_ignores_bom w w' data :
  fs w !! document_path = Some (File true ([0xEF; 0xBB; 0xBF]%Z ++ data)) →
  fs w' !! document_path = Some (File true data) →
  document w = Some (0xFEFF%Z :: utf8_decode data) ∧
  (script w).2 = (script w').2.
Proof.
  intros Hd Hd'. unfold document, script. rewrite !script_with_run, Hd, Hd'.
  cbn [read_file]. rewrite utf8_decode_bom. split; [done|].
  change (0xFEFF%Z :: utf8_decode data) with ([0xFEFF%Z] ++ utf8_decode data).
  rewrite check_sections_skip by compute_done.
  by destruct (check_sections includes requiredSections (utf8_decode data)).
Qed.

Lemma script_ignores_bom_witness :
  document (mkWorld {[ document_path :=
                         File true ([0xEF; 0xBB; 0xBF]%Z ++ lit "Title") ]} [])
  = Some (0xFEFF%Z :: utf8_decode (lit "Title")) ∧
  (script (mkWorld {[ document_path :=
                        File true ([0xEF; 0xBB; 0xBF]%Z ++ lit "Title") ]} [])).2
  = (script (mkWorld {[ document_path := File true (lit "Title") ]} [])).2.
Proof. apply script_ignores_bom; reflexivity. Defined.

(** ** The size of a passing file *)

(** A run ends with status 0 exactly when the document is a readable file
    on whose bytes, undecoded, the loop completes. *)
Lemma status_zero_bytes w :
  status (run_process w) = 0%Z ↔
    ∃ data, fs w !! document_path = Some (File true data) ∧
            check_sections includes requiredSections data = Normal ().
Proof.
  rewrite run_process_status, exit_status_0, script_outcome, validate_Success.
  apply exist_proper; intros data. apply and_iff_compat_l.
  rewrite (check_sections_blocks data (utf8_decode data))
    by apply utf8_decode_blocks.
  by rewrite (check_sections_Normal includes).
Qed.

(** C19: the smallest files that pass.  A run ends with status 0 only on a
    file of at least 141 bytes, and a file of exactly 141 bytes on which it
    does is the six names laid end to end in some order: plain ASCII, with
    no line ending, no heading mark and no byte order mark. *)
Theorem script_pass_file_size w :
  status (run_process w) = 0%Z →
  ∃ data, fs w !! document_path = Some (File true data) ∧
    141 ≤ length data ∧
    (length data = 141 → ∃ perm, perm ≡ₚ requiredSections ∧ data = mjoin perm).
Proof.
  intros (data & Hd & Hpass)%status_zero_bytes. exists data.
  split_and!; [done| |].
  - change 141 with (length (mjoin requiredSections)).
    apply check_sections_length; [apply requiredSections_apart|compute_done|done].
  - intros Hlen. apply (check_sections_exact requiredSections data);
      [apply requiredSections_apart|compute_done|by rewrite Hlen|done].
Qed.

Lemma script_pass_file_size_witness :
  ∃ data,
    fs (mkWorld {[ document_path := File true (mjoin requiredSections) ]} [])
      !! document_path = Some (File true data) ∧
    141 ≤ length data ∧
    (length data = 141 → ∃ perm, perm ≡ₚ requiredSections ∧ data = mjoin perm).
Proof. apply script_pass_file_size. by vm_compute. Defined.

(** ** The bytes written *)

Lemma script_with_stdout_bytes inc sections w :
  stdout_bytes (script_with inc sections w).1 =
    stdout_bytes w ++
    (if is_normal (script_with inc sections w).2 then write_line success_message
     else []).
Proof.
  rewrite script_with_run. destruct (read_file _ _) as [text|e]; simpl.
  - destruct (check_sections inc sections text); simpl;
      [apply console_log_bytes|by rewrite app_nil_r].
  - by rewrite app_nil_r.
Qed.

(** C20: the bytes the script writes.  A run that completes normally
    appends to standard output the 27 ASCII bytes of
    [Structure validation passed] and one line feed; a run that throws
    appends nothing. *)
Theorem script_output_bytes w :
  stdout_bytes (script w).1 =
    stdout_bytes w ++
    (if is_normal (script w).2
     then lit "Structure validation passed" ++ [10]%Z else []).
Proof.
  unfold script. rewrite script_with_stdout_bytes.
  by rewrite write_line_ascii by compute_done.
Qed.

(** ** A document written from a text *)

(** C17: writing a text and validating it.  When the document holds the
    UTF-8 bytes written for a String, any String, the run completes as the
    loop does on that String: encoding, file, decoding and loop compose to
    the check of the text itself, and a lone surrogate, which is written
    as U+FFFD, changes nothing for the six names. *)
Theorem script_on_written_text w text :
  wf_string text →
  fs w !! document_path = Some (File true (utf8_write text)) →
  (script w).2 = check_sections includes requiredSections text.
Proof.
  intros Hcu Hd. unfold script. rewrite script_with_run, Hd. simpl.
  rewrite utf8_decode_write by done.
  rewrite <-(check_sections_blocks text) by apply code_points_units_blocks.
  by destruct (check_sections includes requiredSections text) as [[]|e].
Qed.

Lemma script_on_written_text_witness :
  (script (mkWorld {[ document_path :=
                        File true (utf8_write (lit "Title " ++ [0xD83D; 0x41]%Z)) ]}
             [])).2
  = check_sections includes requiredSections (lit "Title " ++ [0xD83D; 0x41]%Z).
Proof. apply script_on_written_text; [compute_done|reflexivity]. Defined.

