(* ===== verification/Events.v ===== *)
(** * The script as an interaction tree

    The same script, [src/validate.js] lines 5-22, seen from its host: a tree
    whose nodes are the two calls the script makes to Node.js,
    [fs.readFileSync] (line 5) and [console.log] (line 22), and whose leaf is
    the completion of the run.  Nothing is assumed of the host here: the
    answer of the read is any completion, a text or a thrown error.

    The file gives the complete traces of the tree: what the script asks of
    any host and in which order, and what a run reports for each answer of
    the read, stated with the first name missing from the text and not
    with the loop. *)

From Stdlib Require Import String ZArith List.
From ITree Require Import ITree.
From S2P Require Import Completion StringSearch Validator Node Script.
Import ITreeNotations.
Import ListNotations.
Local Open Scope itree_scope.

(** ** Events *)

(** What the script asks of its host.  The read answers with a completion:
    the decoded text, or the error the call throws. *)
Variant hostE : Type -> Type :=
| ReadFileSync (path : string) : hostE (completion (list Z))
| ConsoleLog (s : list Z) : hostE unit.

(** A statement after one that may throw: a throw skips it. *)
Definition and_then {E A B} (c : completion A)
    (k : A -> itree E (completion B)) : itree E (completion B) :=
  match c with
  | Normal a => k a
  | Throw e => Ret (Throw e)
  end.

(** The script, over the search and the array it uses. *)
Definition script_tree_with (inc : list Z -> list Z -> bool)
    (sections : list (list Z)) : itree hostE (completion unit) :=
  answer <- ITree.trigger (ReadFileSync document_path);;
  and_then answer (fun content =>
  and_then (check_sections inc sections content) (fun _ =>
  ITree.trigger (ConsoleLog success_message);;
  Ret (Normal tt))).

(** The script as written. *)
Definition script_tree : itree hostE (completion unit) :=
  script_tree_with includes requiredSections.

(** ** Traces *)

(** One call and its answer. *)
Variant event : Type :=
| Read (path : string) (answer : completion (list Z))
| Log (s : list Z).

Definition event_of {T} (e : hostE T) : T -> event :=
  match e with
  | ReadFileSync path => Read path
  | ConsoleLog s => fun _ => Log s
  end.

(** The node [ot] is a call that, answered, is the event [ev] and goes on
    as [t']. *)
Definition vis_step {R} (ot : itree' hostE R) (ev : event) (t' : itree hostE R)
  : Prop :=
  match ot with
  | VisF e k => exists x, ev = event_of e x /\ t' = k x
  | _ => False
  end.

(** [runs t tr r]: the tree [t] can make the calls of [tr], with the
    answers recorded there, and then end with [r]. *)
Inductive runs {R} (t : itree hostE R) : list event -> R -> Prop :=
| runs_ret r : observe t = RetF r -> runs t [] r
| runs_tau t' tr r : observe t = TauF t' -> runs t' tr r -> runs t tr r
| runs_vis ev t' tr r :
    vis_step (observe t) ev t' -> runs t' tr r -> runs t (ev :: tr) r.

(** The completion of the script when the read answers [answer]: the
    error of the read, or the completion of the loop on the text read. *)
Definition verdict (inc : list Z -> list Z -> bool) (sections : list (list Z))
    (answer : completion (list Z)) : completion unit :=
  match answer with
  | Normal content => check_sections inc sections content
  | Throw e => Throw e
  end.

(** The trace of the script for an answer of the read: the read, and the
    log of the success line if the verdict is normal. *)
Definition script_trace (inc : list Z -> list Z -> bool)
    (sections : list (list Z)) (answer : completion (list Z)) : list event :=
  Read document_path answer
  :: (if is_normal (verdict inc sections answer) then [Log success_message]
      else []).

(** ** Facts about traces *)

Section runs.
Context {R : Type}.
Implicit Types (t : itree hostE R) (tr : list event) (r : R).

(** [runs] sees a tree through [observe] only. *)
Lemma runs_observe t t' tr r : observe t = observe t' -> runs t tr r -> runs t' tr r.
Proof.
  intros Heq H.
  destruct H; [eapply runs_ret|eapply runs_tau|eapply runs_vis];
    rewrite <- ?Heq; eauto.
Qed.

Lemma runs_Ret r' tr r : runs (Ret r') tr r <-> tr = [] /\ r = r'.
Proof.
  split.
  - intros H. inversion H as [r0 Ho|t' tr' r0 Ho|ev t' tr' r0 Hs]; cbn in *;
      [|discriminate|contradiction].
    split; congruence.
  - intros [-> ->]. apply runs_ret. reflexivity.
Qed.

(** A call followed by a continuation: the first event is the call with
    some answer, and the rest is a run of the continuation on it. *)
Lemma runs_trigger_bind {T} (e : hostE T) (k : T -> itree hostE R) tr r :
  runs (x <- ITree.trigger e;; k x) tr r <->
    exists x tr', tr = event_of e x :: tr' /\ runs (k x) tr' r.
Proof.
  split.
  - intros H. inversion H as [r0 Ho|t' tr' r0 Ho|ev t' tr' r0 Hs Hr]; cbn in *;
      [discriminate..|].
    destruct Hs as (x & -> & ->). exists x, tr'. split; [reflexivity|].
    revert Hr. apply runs_observe. reflexivity.
  - intros (x & tr' & -> & Hr). eapply runs_vis.
    + cbn. exists x. split; reflexivity.
    + revert Hr. apply runs_observe. reflexivity.
Qed.

End runs.

(** What follows the read, in terms of the verdict. *)
Lemma run_and_then_verdict {E} inc sections answer (k : unit -> itree E (completion unit)) :
  and_then (verdict inc sections answer) k
  = and_then answer (fun content =>
      and_then (check_sections inc sections content) k).
Proof. destruct answer; reflexivity. Qed.

(** ** The runs of the script *)

Section script_runs.
Context (inc : list Z -> list Z -> bool) (sections : list (list Z)).

(** For every answer of the read there is a run. *)
Lemma runs_script_tree_intro answer :
  runs (script_tree_with inc sections) (script_trace inc sections answer)
    (verdict inc sections answer).
Proof.
  unfold script_tree_with, script_trace. apply runs_trigger_bind.
  exists answer. eexists. split; [reflexivity|].
  rewrite <- run_and_then_verdict.
  destruct (verdict inc sections answer) as [[]|e]; cbn.
  - apply runs_trigger_bind. exists tt, []. split; [reflexivity|].
    apply runs_Ret. tauto.
  - apply runs_Ret. tauto.
Qed.

(** Every run is the run for some answer of the read. *)
Lemma runs_script_tree_inv tr c :
  runs (script_tree_with inc sections) tr c ->
  exists answer,
    tr = script_trace inc sections answer /\ c = verdict inc sections answer.
Proof.
  unfold script_tree_with, script_trace.
  intros (answer & tr' & -> & H)%runs_trigger_bind. exists answer.
  revert H. rewrite <- run_and_then_verdict.
  destruct (verdict inc sections answer) as [[]|e]; cbn.
  - intros ([] & tr'' & -> & [-> ->]%runs_Ret)%runs_trigger_bind. tauto.
  - intros [-> ->]%runs_Ret. tauto.
Qed.

End script_runs.

(** The verdict of the script on a text is the first name missing from
    it. *)
Lemma verdict_first_missing content :
  verdict includes requiredSections (Normal content) =
    match first_missing requiredSections content with
    | None => Normal tt
    | Some (_, name) => Throw (new_Error (missing_section_message name))
    end.
Proof. apply (check_sections_first_missing includes). Qed.

(** ** The tree's theorems *)

(** C13: what the script asks of any host.  A complete run of the script
    is one read of [CLARIFICATION_REQUEST.md], and then nothing more if the
    read throws or the loop throws on the text read, or one log of the
    success line if the loop completes; the run ends with the error thrown
    or normally.  No other trace exists, whatever the host answers. *)
Theorem script_tree_traces inc sections tr c :
  runs (script_tree_with inc sections) tr c <->
    exists answer,
      tr = script_trace inc sections answer /\ c = verdict inc sections answer.
Proof.
  split; [apply runs_script_tree_inv|].
  intros (answer & -> & ->). apply runs_script_tree_intro.
Qed.

(** C14: what a run reports, whatever the host.  A complete run of the
    script as written is one of three: the read throws, and the run ends
    with that error after the read alone; the read returns a text from
    which a required name is missing, and the run ends after the read
    alone with the error [Missing section:] followed by the first such
    name; the read returns a text that holds all six names, and the run
    logs the success line and ends normally.  Each of the three is a run,
    for every error and every text. *)
Theorem script_tree_reports tr c :
  runs script_tree tr c <->
    (exists e, tr = [Read document_path (Throw e)] /\ c = Throw e) \/
    (exists content,
       match first_missing requiredSections content with
       | None =>
           tr = [Read document_path (Normal content); Log success_message] /\
           c = Normal tt
       | Some (_, name) =>
           tr = [Read document_path (Normal content)] /\
           c = Throw (new_Error (missing_section_message name))
       end).
Proof.
  unfold script_tree. split.
  - intros (answer & -> & ->)%runs_script_tree_inv. unfold script_trace.
    destruct answer as [content|e]; [right; exists content|left; exists e; tauto].
    rewrite verdict_first_missing.
    destruct (first_missing requiredSections content) as [[i name]|]; cbn; tauto.
  - intros [(e & -> & ->)|(content & H)].
    { apply (runs_script_tree_intro _ _ (Throw e)). }
    pose proof (runs_script_tree_intro includes requiredSections (Normal content))
      as Hr.
    unfold script_trace in Hr. rewrite verdict_first_missing in Hr.
    destruct (first_missing requiredSections content) as [[i name]|];
      destruct H as [-> ->]; exact Hr.
Qed.
